(** * Friend recommendation engine: a shallow embedding of [friend_app.py]

    The development follows the Python source class by class:

    - [DatabaseManager] is the SQLite store, held as the three tables of
      [create_tables] (rows in insertion order) and the AUTOINCREMENT
      counter of [users];
    - the methods of [User] are functions on that store; [create_user]
      returns the store after the call together with the new id;
    - [networkx.Graph] is a finite map from node to its attribute dict and
      its adjacency set (networkx keeps two dicts, [_node] and [_adj], over
      the same keys);
    - [RecommendationEngine] pairs the shared store with the graph built by
      [_build_graph] in [__init__];
    - [FriendRecommendationApp] is the engine with the logged-in user; one
      round of the menu of [run] is a function on that state.

    Python exceptions are values of [exn]; a computation that may raise
    returns [result A].  Python [float] scores are idealised as exact
    rationals kept in lowest terms, so equal scores are equal terms.
    Python [set] iteration order is not fixed by the language: the two
    places where the source iterates a set take the order as a section
    variable that is only assumed to enumerate the set.

    Ids are Python integers, and the store holds 64-bit ones.
    [get_user], [get_user_interests] and [calculate_user_similarity] are
    the calls on ids that the store can hold; [py_get_user],
    [py_get_user_interests] and [py_calculate_user_similarity] are the
    same calls on any integer, with the [OverflowError] that binding the
    parameter raises.  Strings are sequences of bytes; [strip] and [lower]
    are Python's on ASCII text. *)

From stdpp Require Import gmap strings list sorting.
From Stdlib Require Import Ascii QArith Qreduction Lqa.

Local Open Scope Z_scope.

(** ** Exceptions *)

Inductive exn : Type :=
| NetworkXError (n : Z)   (* "The node n is not in the graph." *)
| ZeroDivisionError
| TypeError               (* subscripting [None] *)
| OverflowError.          (* binding an [int] that does not fit 64 bits *)

Definition result (A : Type) : Type := exn + A.

Definition ret {A} (a : A) : result A := inr a.
Definition raise {A} (e : exn) : result A := inl e.
Definition bind {A B} (m : result A) (k : A → result B) : result B :=
  match m with
  | inl e => inl e
  | inr a => k a
  end.

Notation "'let*' x ':=' m 'in' k" := (bind m (λ x, k))
  (at level 10, x name, m at level 100, k at level 200,
   format "'[v' 'let*'  x  ':='  m  'in' '/' k ']'").

Definition succeeds {A} (m : result A) : Prop := ∃ a, m = inr a.

(** ** Numbers *)

(** [n / m] on Python integers: true division, [ZeroDivisionError] on a
    zero divisor. *)
Definition py_truediv (n m : Z) : result Q :=
  if decide (m = 0) then raise ZeroDivisionError
  else ret (Qred (inject_Z n / inject_Z m)).

(** [len(s)] *)
Definition len `{Countable A} (s : gset A) : Z := Z.of_nat (size s).

(** Truth value of a set: non-empty. *)
Definition truthy `{Countable A} (s : gset A) : bool :=
  bool_decide (s ≠ ∅).

(** ** SQLite integers

    A rowid, and every INTEGER the store holds, is a signed 64-bit number.
    Binding a Python [int] outside that range as a parameter of [execute]
    raises [OverflowError] before the statement runs; it is no
    [sqlite3.Error]. *)

Definition max_rowid : Z := 2 ^ 63 - 1.

Definition sqlite_integer (n : Z) : Prop := - 2 ^ 63 ≤ n ∧ n ≤ max_rowid.

#[global] Instance sqlite_integer_dec n : Decision (sqlite_integer n) :=
  and_dec (decide (- 2 ^ 63 ≤ n)) (decide (n ≤ max_rowid)).

Definition bind_integer (n : Z) : result Z :=
  if decide (sqlite_integer n) then ret n else raise OverflowError.

(** ** Strings: [str.strip] and [str.lower] on ASCII text

    A string is the sequence of its bytes.  On text made of ASCII
    characters only, [strip] and [lower] are Python's [str.strip] and
    [str.lower]; other text is outside what they describe. *)

Definition ascii_char (c : ascii) : Prop := (nat_of_ascii c < 128)%nat.

Fixpoint ascii_text (s : string) : Prop :=
  match s with
  | String c s' => ascii_char c ∧ ascii_text s'
  | EmptyString => True
  end.

Definition is_space (c : ascii) : bool :=
  let n := nat_of_ascii c in
  ((9 <=? n)%nat && (n <=? 13)%nat) || ((28 <=? n)%nat && (n <=? 32)%nat).

Definition lower_ascii (c : ascii) : ascii :=
  let n := nat_of_ascii c in
  if ((65 <=? n)%nat && (n <=? 90)%nat) then ascii_of_nat (n + 32) else c.

Fixpoint lstrip (s : string) : string :=
  match s with
  | String c s' => if is_space c then lstrip s' else s
  | EmptyString => EmptyString
  end.

Fixpoint rstrip (s : string) : string :=
  match s with
  | String c s' =>
      match rstrip s' with
      | EmptyString => if is_space c then EmptyString else String c EmptyString
      | t => String c t
      end
  | EmptyString => EmptyString
  end.

Definition strip (s : string) : string := rstrip (lstrip s).

Fixpoint lower (s : string) : string :=
  match s with
  | String c s' => String (lower_ascii c) (lower s')
  | EmptyString => EmptyString
  end.

(** ** The store *)

(** A row of [users]. *)
Record user_row : Type := {
  u_id : Z;
  u_name : string;
  u_email : string;
  u_created_at : string;
}.

(** The three tables.  Of [interests] and [friends] only the columns the
    program reads are kept: [(user_id, interest)] and
    [(user_id, friend_id)], holding integers and text as the rows that
    [create_user] writes do.  [users_seq] is the [sqlite_sequence] entry
    of [users]. *)
Record DatabaseManager : Type := {
  users : list user_row;
  interests : list (Z * string);
  friends : list (Z * Z);
  users_seq : Z;
}.

Definition empty_store : DatabaseManager :=
  {| users := []; interests := []; friends := []; users_seq := 0 |}.

Definition user_ids (db : DatabaseManager) : gset Z :=
  list_to_set (u_id <$> users db).

(** The ids that occur in [friends]. *)
Definition friend_endpoints (db : DatabaseManager) : gset Z :=
  list_to_set (friends db ≫= λ p, [p.1; p.2]).

(** The declared foreign keys of [friends]: both columns reference
    [users(id)]. *)
Definition friends_fk (db : DatabaseManager) : Prop :=
  Forall (λ p, p.1 ∈ user_ids db ∧ p.2 ∈ user_ids db) (friends db).

(** ** class User *)

(** [SELECT * FROM users WHERE id = ?] then [fetchone()]: [None] when no
    row matches.  This is the query on an id that was bound; [py_get_user]
    below is the whole call. *)
Definition get_user (db : DatabaseManager) (user_id : Z) : option user_row :=
  List.find (λ r, bool_decide (u_id r = user_id)) (users db).

Definition get_user_by_email (db : DatabaseManager) (e : string) : option user_row :=
  List.find (λ r, bool_decide (u_email r = e)) (users db).

Definition get_all_users (db : DatabaseManager) : list user_row := users db.

Definition get_user_interests (db : DatabaseManager) (user_id : Z) : gset string :=
  list_to_set (snd <$> filter (λ p, p.1 = user_id) (interests db)).

(** The calls [get_user(user_id)] and [get_user_interests(user_id)] with
    any Python [int]: [execute] binds the id before the SELECT runs. *)
Definition py_get_user (db : DatabaseManager) (user_id : Z)
  : result (option user_row) :=
  let* user_id := bind_integer user_id in
  ret (get_user db user_id).

Definition py_get_user_interests (db : DatabaseManager) (user_id : Z)
  : result (gset string) :=
  let* user_id := bind_integer user_id in
  ret (get_user_interests db user_id).

(** An AUTOINCREMENT key has a rowid left to give when neither the
    [sqlite_sequence] entry nor a rowid in use is the largest rowid there
    is. *)
Definition rowid_available (db : DatabaseManager) : Prop :=
  Forall (λ n, n < max_rowid) (users_seq db :: (u_id <$> users db)).

(** [INSERT INTO users]: the rowid of the new row.  SQLite takes one more
    than the largest rowid in the table, 1 when the table is empty, and
    raises that to one more than the [sqlite_sequence] entry; the INSERT
    fails (SQLITE_FULL) when no rowid is left. *)
Definition next_user_id (db : DatabaseManager) : option Z :=
  if decide (rowid_available db) then
    Some (Z.max (users_seq db + 1)
            match u_id <$> users db with
            | [] => 1
            | n :: ns => foldr Z.max n ns + 1
            end)
  else None.

(** [INSERT INTO interests]: [IntegrityError] on a duplicate
    [(user_id, interest)] is caught and the loop continues. *)
Definition insert_interest (uid : Z) (tbl : list (Z * string)) (i : string)
  : list (Z * string) :=
  let row := (uid, lower (strip i)) in
  if decide (row ∈ tbl) then tbl else tbl ++ [row].

(** One round of the [friend_ids] loop.  The second INSERT may fail on
    [UNIQUE(user_id, friend_id)] after the first one went through; the
    [except] clause keeps what was inserted. *)
Definition insert_friend (usrs : list user_row) (uid : Z)
    (tbl : list (Z * Z)) (fid : Z) : list (Z * Z) :=
  if bool_decide (fid ∈ u_id <$> usrs) then
    if decide ((uid, fid) ∈ tbl) then tbl
    else
      let tbl1 := tbl ++ [(uid, fid)] in
      if decide ((fid, uid) ∈ tbl1) then tbl1 else tbl1 ++ [(fid, uid)]
  else tbl.

(** [create_user(name, email, interests, friend_ids)].  [None] and the
    empty list take the same branch of [if interests:], so both are the
    empty list here.  [now] is the store's CURRENT_TIMESTAMP.  A failing
    INSERT into [users] (duplicate email, or no rowid left) rolls back and
    returns [None].  Two ways in which a call can end are outside this
    function: a friend id that is no [sqlite_integer] makes the SELECT
    raise [OverflowError], which the [except] clause does not catch; and
    the rowids of [interests] and [friends] are not kept, so an INSERT
    into one of them that finds no rowid left (the call then rolls back
    and returns [None]) is not described.  A call that returns an id went
    neither way. *)
Definition create_user (db : DatabaseManager) (now : string)
    (name email : string) (ints : list string) (friend_ids : list Z)
  : DatabaseManager * option Z :=
  if bool_decide (email ∈ u_email <$> users db) then (db, None)
  else
    match next_user_id db with
    | None => (db, None)
    | Some user_id =>
        let usrs := users db ++
          [{| u_id := user_id; u_name := name; u_email := email;
              u_created_at := now |}] in
        ({| users := usrs;
            interests := foldl (insert_interest user_id) (interests db) ints;
            friends := foldl (insert_friend usrs user_id) (friends db) friend_ids;
            users_seq := user_id |},
         Some user_id)
    end.

(** ** networkx.Graph

    An undirected graph without edge attributes: every node carries its
    attribute dict and the set of its neighbours. *)

Record node_data : Type := {
  attrs : gmap string string;
  nbrs : gset Z;
}.

Abbreviation Graph := (gmap Z node_data).

(** [G.add_node(n, **attr)]: a new node gets [attr]; on a known node the
    dict is updated. *)
Definition add_node (g : Graph) (n : Z) (a : gmap string string) : Graph :=
  match g !! n with
  | None => <[n := {| attrs := a; nbrs := ∅ |}]> g
  | Some d => <[n := {| attrs := a ∪ attrs d; nbrs := nbrs d |}]> g
  end.

(** The "add nodes" part of [G.add_edge]: an unknown endpoint becomes a
    node with an empty attribute dict. *)
Definition ensure_node (g : Graph) (n : Z) : Graph :=
  match g !! n with
  | None => <[n := {| attrs := ∅; nbrs := ∅ |}]> g
  | Some _ => g
  end.

Definition link (g : Graph) (u v : Z) : Graph :=
  alter (λ d, {| attrs := attrs d; nbrs := {[v]} ∪ nbrs d |}) u g.

(** [G.add_edge(u, v)] *)
Definition add_edge (g : Graph) (u v : Z) : Graph :=
  link (link (ensure_node (ensure_node g u) v) u v) v u.

(** [G.nodes] *)
Definition nodes (g : Graph) : gset Z := dom g.

(** [set(G.neighbors(n))]: [NetworkXError] when [n] is not a node. *)
Definition neighbors (g : Graph) (n : Z) : result (gset Z) :=
  match g !! n with
  | Some d => ret (nbrs d)
  | None => raise (NetworkXError n)
  end.

(** [G.adj[n]] as a set, empty for an unknown [n]. *)
Definition adj (g : Graph) (n : Z) : gset Z :=
  default ∅ (nbrs <$> g !! n).

(** The undirected edges of the graph, each as the pair (smaller end,
    larger end). *)
Definition norm_pair (p : Z * Z) : Z * Z := (Z.min p.1 p.2, Z.max p.1 p.2).

Definition edges (g : Graph) : gset (Z * Z) :=
  list_to_set (norm_pair <$>
    (map_to_list g ≫= λ kd, (λ v, (kd.1, v)) <$> elements (nbrs kd.2))).

(** ** class RecommendationEngine *)

(** The engine keeps a reference to the store it shares with the rest of
    the program, and its own graph. *)
Record RecommendationEngine : Type := {
  db : DatabaseManager;
  graph : Graph;
}.

Definition user_attrs (user : user_row) : gmap string string :=
  {[ "name" := u_name user; "email" := u_email user ]}.

(** [_build_graph], run on the graph held so far. *)
Definition _build_graph (g : Graph) (d : DatabaseManager) : Graph :=
  let g1 := foldl (λ g user, add_node g (u_id user) (user_attrs user))
                  g (get_all_users d) in
  foldl (λ g row, add_edge g row.1 row.2) g1 (friends d).

(** [RecommendationEngine(db_manager)]: [__init__] starts from
    [nx.Graph()] and builds. *)
Definition new_engine (d : DatabaseManager) : RecommendationEngine :=
  {| db := d; graph := _build_graph ∅ d |}.

(** [jaccard_similarity(a, b)] *)
Definition jaccard_similarity `{Countable A} (a b : gset A) : result Q :=
  if truthy a || truthy b then py_truediv (len (a ∩ b)) (len (a ∪ b))
  else ret 0%Q.

(** The dict returned by [calculate_user_similarity]. *)
Record similarity : Type := {
  interest_similarity : Q;
  mutual_friends_similarity : Q;
  combined_score : Q;
  common_interests : list string;
  mutual_friends_count : Z;
}.

(** An element of the list returned by [get_friend_recommendations]. *)
Record recommendation : Type := {
  rec_user_id : Z;
  rec_name : string;
  rec_email : string;
  similarity_score : Q;
  rec_common_interests : list string;
  rec_mutual_friends_count : Z;
  rec_interest_similarity : Q;
  rec_mutual_friends_similarity : Q;
}.

(** [sorted(l, key=..., reverse=True)]: a stable sort, largest key first;
    entries with equal keys keep their order. *)
Fixpoint insert_desc {A} (key : A → Q) (x : A) (l : list A) : list A :=
  match l with
  | [] => [x]
  | y :: l' =>
      if Qlt_le_dec (key x) (key y) then y :: insert_desc key x l'
      else x :: l
  end.

Definition sorted_desc {A} (key : A → Q) (l : list A) : list A :=
  foldr (insert_desc key) [] l.

(** [l[:stop]]: a negative [stop] counts from the end. *)
Definition slice_to {A} (l : list A) (stop : Z) : list A :=
  if decide (stop < 0)
  then take (Z.to_nat (Z.max 0 (Z.of_nat (length l) + stop))) l
  else take (Z.to_nat stop) l.

Section engine.
(** The order in which a Python set of ids, or of strings, is iterated. *)
Variable iter_ids : gset Z → list Z.
Variable iter_strs : gset string → list string.

Definition calculate_user_similarity (e : RecommendationEngine)
    (user1_id user2_id : Z) : result similarity :=
  let interests1 := get_user_interests (db e) user1_id in
  let interests2 := get_user_interests (db e) user2_id in
  let* friends1 := neighbors (graph e) user1_id in
  let* friends2 := neighbors (graph e) user2_id in
  let* interest_sim := jaccard_similarity interests1 interests2 in
  let* mutual_sim := jaccard_similarity friends1 friends2 in
  let combined := Qred (0.6 * mutual_sim + 0.4 * interest_sim) in
  ret {| interest_similarity := interest_sim;
         mutual_friends_similarity := mutual_sim;
         combined_score := combined;
         common_interests := iter_strs (interests1 ∩ interests2);
         mutual_friends_count := len (friends1 ∩ friends2) |}.

(** The call with any two Python [int]s: the two SELECTs come first, each
    binding its id. *)
Definition py_calculate_user_similarity (e : RecommendationEngine)
    (user1_id user2_id : Z) : result similarity :=
  let* interests1 := py_get_user_interests (db e) user1_id in
  let* interests2 := py_get_user_interests (db e) user2_id in
  let* friends1 := neighbors (graph e) user1_id in
  let* friends2 := neighbors (graph e) user2_id in
  let* interest_sim := jaccard_similarity interests1 interests2 in
  let* mutual_sim := jaccard_similarity friends1 friends2 in
  let combined := Qred (0.6 * mutual_sim + 0.4 * interest_sim) in
  ret {| interest_similarity := interest_sim;
         mutual_friends_similarity := mutual_sim;
         combined_score := combined;
         common_interests := iter_strs (interests1 ∩ interests2);
         mutual_friends_count := len (friends1 ∩ friends2) |}.

(** The body of the [for cid in candidates] loop. *)
Definition recommend_one (e : RecommendationEngine) (user_id cid : Z)
    (recommendations : list recommendation) : result (list recommendation) :=
  let* sim := calculate_user_similarity e user_id cid in
  if Qlt_le_dec 0 (combined_score sim) then
    match get_user (db e) cid with
    | None => raise TypeError
    | Some user =>
        ret (recommendations ++
          [{| rec_user_id := cid;
              rec_name := u_name user;
              rec_email := u_email user;
              similarity_score := combined_score sim;
              rec_common_interests := common_interests sim;
              rec_mutual_friends_count := mutual_friends_count sim;
              rec_interest_similarity := interest_similarity sim;
              rec_mutual_friends_similarity := mutual_friends_similarity sim |}])
    end
  else ret recommendations.

Fixpoint recommend_loop (e : RecommendationEngine) (user_id : Z)
    (cids : list Z) (recommendations : list recommendation)
  : result (list recommendation) :=
  match cids with
  | [] => ret recommendations
  | cid :: rest =>
      let* recommendations' := recommend_one e user_id cid recommendations in
      recommend_loop e user_id rest recommendations'
  end.

Definition candidates (g : Graph) (user_id : Z) (current_friends : gset Z) : gset Z :=
  nodes g ∖ current_friends ∖ {[user_id]}.

Definition get_friend_recommendations (e : RecommendationEngine)
    (user_id : Z) (limit : Z) : result (list recommendation) :=
  let* current_friends := neighbors (graph e) user_id in
  let* recommendations :=
    recommend_loop e user_id
      (iter_ids (candidates (graph e) user_id current_friends)) [] in
  ret (slice_to (sorted_desc similarity_score recommendations) limit).

(** [cid] scores strictly above 0 against [user_id]. *)
Definition positive_candidate (e : RecommendationEngine) (user_id cid : Z) : Prop :=
  ∃ sim, calculate_user_similarity e user_id cid = inr sim ∧
         (0 < combined_score sim)%Q.

(** Every candidate of [user_id] that scores above 0 still has its row in
    [users], so that [user['name']] never subscripts [None]. *)
Definition candidates_covered (e : RecommendationEngine) (user_id : Z) : Prop :=
  ∀ fs c, neighbors (graph e) user_id = inr fs →
          c ∈ candidates (graph e) user_id fs →
          positive_candidate e user_id c →
          is_Some (get_user (db e) c).

(** [r] is the entry the loop appends for the candidate [cid]. *)
Definition entry_for (e : RecommendationEngine) (user_id cid : Z)
    (r : recommendation) : Prop :=
  ∃ sim user,
    calculate_user_similarity e user_id cid = inr sim ∧
    (0 < combined_score sim)%Q ∧
    get_user (db e) cid = Some user ∧
    rec_user_id r = cid ∧
    rec_name r = u_name user ∧
    rec_email r = u_email user ∧
    similarity_score r = combined_score sim ∧
    rec_common_interests r = common_interests sim ∧
    rec_mutual_friends_count r = mutual_friends_count sim ∧
    rec_interest_similarity r = interest_similarity sim ∧
    rec_mutual_friends_similarity r = mutual_friends_similarity sim.

End engine.

(** ** The running program

    [FriendRecommendationApp] builds the engine once in [initialize]; every
    later [create_user] goes to the shared store and leaves the engine's
    graph alone. *)

Record call : Type := {
  c_now : string;
  c_name : string;
  c_email : string;
  c_interests : list string;
  c_friend_ids : list Z;
}.

(** A [create_user] call made while the engine [e] is alive: the store
    behind [e] is the one written to. *)
Definition app_create_user (e : RecommendationEngine) (c : call)
  : RecommendationEngine * option Z :=
  let r := create_user (db e) (c_now c) (c_name c) (c_email c)
                       (c_interests c) (c_friend_ids c) in
  ({| db := r.1; graph := graph e |}, r.2).

(** A sequence of calls, with the ids they returned. *)
Fixpoint run_calls (e : RecommendationEngine) (cs : list call)
  : RecommendationEngine * list (option Z) :=
  match cs with
  | [] => (e, [])
  | c :: cs' =>
      let r := app_create_user e c in
      let r' := run_calls r.1 cs' in
      (r'.1, r.2 :: r'.2)
  end.

(** The engine states the program is in when it starts from a store whose
    [friends] rows respect their foreign keys: built from that store, then
    any number of [create_user] calls.  SQLite does not check the foreign
    keys, so a store can be otherwise ([store_dangling]). *)
Inductive reachable : RecommendationEngine → Prop :=
| reach_new d : friends_fk d → reachable (new_engine d)
| reach_create e c : reachable e → reachable (app_create_user e c).1.

(** Every node of the graph still has its row in [users]. *)
Definition store_covers (e : RecommendationEngine) : Prop :=
  ∀ n, n ∈ nodes (graph e) → is_Some (get_user (db e) n).

(** The order of [sorted(l, key=key, reverse=True)]. *)
Definition desc_by {A} (key : A → Q) (x y : A) : Prop :=
  (key y <= key x)%Q.

Definition score_ge : relation recommendation := desc_by similarity_score.

(** ** Sample stores *)

Definition sample_user (i : Z) (n : string) : user_row :=
  {| u_id := i; u_name := n; u_email := n; u_created_at := "2024-01-01" |}.

(** Three users without friends: 1 likes a and b, 2 likes a and c, 3 likes
    a and b. *)
Definition store_interests : DatabaseManager :=
  {| users := [sample_user 1 "u1"; sample_user 2 "u2"; sample_user 3 "u3"];
     interests := [(1, "a"); (1, "b"); (2, "a"); (2, "c"); (3, "a"); (3, "b")];
     friends := [];
     users_seq := 3 |}.


(** Users 1 and 2 share the friend 3, stored in both directions; nobody
    has interests. *)
Definition store_friends : DatabaseManager :=
  {| users := [sample_user 1 "u1"; sample_user 2 "u2"; sample_user 3 "f"];
     interests := [];
     friends := [(1, 3); (3, 1); (2, 3); (3, 2)];
     users_seq := 3 |}.

(** Two users with nothing in common. *)
Definition store_plain : DatabaseManager :=
  {| users := [sample_user 1 "u1"; sample_user 2 "u2"];
     interests := [];
     friends := [];
     users_seq := 2 |}.

(** Users 1 and 2 are friends, and [friends] still names a user 9 who has
    no row in [users]: SQLite checks the FOREIGN KEY clauses only when
    asked to, and the program does not ask. *)
Definition store_dangling : DatabaseManager :=
  {| users := [sample_user 1 "u1"; sample_user 2 "u2"];
     interests := [];
     friends := [(1, 2); (2, 1); (2, 9); (9, 2)];
     users_seq := 2 |}.


Definition sample_a : gset Z := {[1; 2]}.
Definition sample_b : gset Z := {[2; 3]}.

Definition sample_call : call :=
  {| c_now := "2024-02-02"; c_name := "u4"; c_email := "u4";
     c_interests := [" A "; "b"]; c_friend_ids := [1] |}.


(** ** Constraints of the schema

    What [create_tables] declares: the primary key and the unique email of
    [users], [UNIQUE(user_id, interest)], [UNIQUE(user_id, friend_id)], and
    the foreign keys of [interests] and [friends]. *)

Definition interests_fk (d : DatabaseManager) : Prop :=
  Forall (λ p, p.1 ∈ user_ids d) (interests d).

Record schema_ok (d : DatabaseManager) : Prop := {
  ok_ids : NoDup (u_id <$> users d);
  ok_emails : NoDup (u_email <$> users d);
  ok_interests : NoDup (interests d);
  ok_friends : NoDup (friends d);
  ok_interests_fk : interests_fk d;
  ok_friends_fk : friends_fk d;
}.

(** Friendships are stored in both directions. *)
Definition symmetric_friends (d : DatabaseManager) : Prop :=
  ∀ a b, (a, b) ∈ friends d → (b, a) ∈ friends d.

(** ** class FriendRecommendationApp

    One round of the menu loop of [run] is a function from the state of
    the program and the choice read, with the lines typed after it, to the
    state after the round and what was printed.  What is printed is kept
    as a value, without the formatting of the f-strings.  The id typed for
    choice 2 is the integer [int(...)] made of it. *)

(** [s.split(',')] *)
Fixpoint split_comma (s : string) : list string :=
  match s with
  | EmptyString => [EmptyString]
  | String c s' =>
      if Ascii.eqb c "," then EmptyString :: split_comma s'
      else
        match split_comma s' with
        | [] => [String c EmptyString]
        | piece :: pieces => String c piece :: pieces
        end
  end.

(** The engine holds the store that [self.db] and [self.user_manager]
    share with it. *)
Record FriendRecommendationApp : Type := {
  recommendation_engine : RecommendationEngine;
  current_user_id : option Z;
}.

(** [initialize], once [connect] and [create_tables] went through on the
    store [d]. *)
Definition initialize (d : DatabaseManager) : FriendRecommendationApp :=
  {| recommendation_engine := new_engine d; current_user_id := None |}.

Inductive choice : Type :=
| CreateUser (now name email interests_line : string)   (* '1' *)
| Login (uid : Z)                                       (* '2' *)
| ViewProfile                                           (* '3' *)
| GetRecommendations                                    (* '4' *)
| ViewAllUsers                                          (* '5' *)
| Exit                                                  (* '0' *)
| OtherChoice.

Inductive printed : Type :=
| UserCreated (uid : option Z)
| LoggedIn
| UserNotFound
| PleaseLogin
| Profile (user : user_row) (interests : list string)
| Recommendations (recs : list recommendation)
| AllUsers (us : list user_row)
| Goodbye
| InvalidOption.

(** The user the guard [if not self.current_user_id] lets through: [None]
    and 0 are false. *)
Definition logged_in (app : FriendRecommendationApp) : option Z :=
  match current_user_id app with
  | Some u => if decide (u = 0) then None else Some u
  | None => None
  end.

Definition with_db (app : FriendRecommendationApp) (d : DatabaseManager)
  : FriendRecommendationApp :=
  {| recommendation_engine :=
       {| db := d; graph := graph (recommendation_engine app) |};
     current_user_id := current_user_id app |}.

Section menu.
Variable iter_ids : gset Z → list Z.
Variable iter_strs : gset string → list string.

Definition menu_choice (app : FriendRecommendationApp) (ch : choice)
  : result (FriendRecommendationApp * printed) :=
  let d := db (recommendation_engine app) in
  match ch with
  | CreateUser now name email interests_line =>
      let r := create_user d now name email (split_comma interests_line) [] in
      ret (with_db app r.1, UserCreated r.2)
  | Login uid =>
      match get_user d uid with
      | Some _ =>
          ret ({| recommendation_engine := recommendation_engine app;
                  current_user_id := Some uid |}, LoggedIn)
      | None => ret (app, UserNotFound)
      end
  | ViewProfile =>
      match logged_in app with
      | None => ret (app, PleaseLogin)
      | Some uid =>
          match get_user d uid with
          | None => raise TypeError
          | Some user =>
              ret (app, Profile user (iter_strs (get_user_interests d uid)))
          end
      end
  | GetRecommendations =>
      match logged_in app with
      | None => ret (app, PleaseLogin)
      | Some uid =>
          let* recs := get_friend_recommendations iter_ids iter_strs
                         (recommendation_engine app) uid 5 in
          ret (app, Recommendations recs)
      end
  | ViewAllUsers => ret (app, AllUsers (get_all_users d))
  | Exit => ret (app, Goodbye)
  | OtherChoice => ret (app, InvalidOption)
  end.

(** The loop of [run] on the choices read, up to the first '0' or the
    first exception. *)
Fixpoint run_menu (app : FriendRecommendationApp) (chs : list choice)
  : result (FriendRecommendationApp * list printed) :=
  match chs with
  | [] => ret (app, [])
  | Exit :: _ => ret (app, [Goodbye])
  | ch :: chs' =>
      let* r := menu_choice app ch in
      let* r' := run_menu r.1 chs' in
      ret (r'.1, r.2 :: r'.2)
  end.

End menu.

(** ** Sample sessions *)

(** The engine built on [store_interests], looking at a store that has
    lost the row of user 3. *)
Definition engine_lost_row : RecommendationEngine :=
  {| db := {| users := [sample_user 1 "u1"; sample_user 2 "u2"];
              interests := interests store_interests;
              friends := [];
              users_seq := 3 |};
     graph := graph (new_engine store_interests) |}.

Definition sample_recs : list recommendation :=
  match get_friend_recommendations elements elements
          (new_engine store_interests) 1 5 with
  | inr recs => recs
  | inl _ => []
  end.

Definition sample_choices : list choice :=
  [CreateUser "2024-02-02" "u4" "u4" "Chess, a"; Login 4; ViewProfile;
   ViewAllUsers; OtherChoice].

Definition sample_app : FriendRecommendationApp :=
  {| recommendation_engine := new_engine store_interests;
     current_user_id := Some 1 |}.

(** The program started on [store_interests], after choice 1 with the
    interests line [line]. *)
Definition sample_created (line : string) : FriendRecommendationApp :=
  with_db (initialize store_interests)
    (create_user store_interests "2024-02-02" "u4" "u4" (split_comma line) []).1.


(** * Properties *)

(** ** The exception monad *)

Lemma bind_inr {A B} (m : result A) (k : A → result B) b :
  bind m k = inr b ↔ ∃ a, m = inr a ∧ k a = inr b.
Proof.
  destruct m as [e|a]; simpl.
  - split; [discriminate | intros (a & Ha & _); discriminate].
  - split; [eauto | intros (a' & [= <-] & Hk); done].
Qed.

Lemma bind_inl {A B} (m : result A) (k : A → result B) e :
  bind m k = inl e ↔ m = inl e ∨ ∃ a, m = inr a ∧ k a = inl e.
Proof.
  destruct m as [e'|a]; simpl.
  - split; [intros [= ->]; by left | intros [[= ->] | (a & Ha & _)]; [done | discriminate]].
  - split; [eauto | intros [H | (a' & [= <-] & Hk)]; [discriminate | done]].
Qed.

(** ** Arithmetic of scores *)

Lemma py_truediv_pos n m :
  0 < m → py_truediv n m = inr (Qred (inject_Z n / inject_Z m)).
Proof. intros Hm. unfold py_truediv. case_decide; [lia | done]. Qed.

Lemma ratio_bounds n m :
  0 ≤ n → n ≤ m → 0 < m →
  (0 <= Qred (inject_Z n / inject_Z m) <= 1)%Q.
Proof.
  intros H0 Hnm Hm. rewrite Qred_correct.
  assert (0 < inject_Z m)%Q as Hm' by (rewrite (Zlt_Qlt 0 m) in Hm; exact Hm).
  split.
  - apply Qle_shift_div_l; [exact Hm' |]. rewrite Qmult_0_l.
    rewrite (Zle_Qle 0 n) in H0. exact H0.
  - apply Qle_shift_div_r; [exact Hm' |]. rewrite Qmult_1_l.
    rewrite (Zle_Qle n m) in Hnm. exact Hnm.
Qed.

Lemma ratio_self n : 0 < n → Qred (inject_Z n / inject_Z n) = 1%Q.
Proof.
  intros Hn. change 1%Q with (Qred 1). apply Qred_complete.
  apply Qmult_inv_r. intros H. rewrite (Zlt_Qlt 0 n) in Hn.
  rewrite H in Hn. by apply Qlt_irrefl in Hn.
Qed.

Lemma combined_bounds (m i : Q) :
  (0 <= m <= 1)%Q → (0 <= i <= 1)%Q →
  (0 <= Qred (0.6 * m + 0.4 * i) <= 1)%Q.
Proof. intros [??] [??]. rewrite Qred_correct. split; lra. Qed.

(** ** Sets *)

Lemma truthy_true `{Countable A} (s : gset A) : truthy s = true ↔ s ≠ ∅.
Proof. unfold truthy. by rewrite bool_decide_eq_true. Qed.

Lemma truthy_or `{Countable A} (a b : gset A) :
  truthy a || truthy b = true ↔ a ∪ b ≠ ∅.
Proof.
  rewrite orb_true_iff, !truthy_true. split.
  - intros [Ha | Hb] Hu; apply empty_union_L in Hu as [??]; done.
  - intros Hu. destruct (decide (a = ∅)) as [->|]; [|by left].
    right. by rewrite (left_id_L ∅ (∪)) in Hu.
Qed.

Lemma len_pos `{Countable A} (s : gset A) : s ≠ ∅ → 0 < len s.
Proof.
  intros Hs. unfold len. assert (size s ≠ 0%nat); [|lia].
  rewrite size_non_empty_iff. by intros ?%leibniz_equiv.
Qed.

Lemma len_inter_le_union `{Countable A} (a b : gset A) :
  0 ≤ len (a ∩ b) ≤ len (a ∪ b).
Proof.
  unfold len. split; [lia |]. apply Nat2Z.inj_le, subseteq_size.
  intros x [Hx _]%elem_of_intersection. apply elem_of_union. by left.
Qed.

(** ** jaccard_similarity *)

Lemma jaccard_nonempty `{Countable A} (a b : gset A) :
  a ∪ b ≠ ∅ →
  jaccard_similarity a b
  = inr (Qred (inject_Z (len (a ∩ b)) / inject_Z (len (a ∪ b)))).
Proof.
  intros Hu. unfold jaccard_similarity.
  apply truthy_or in Hu as Ht. rewrite Ht.
  by apply py_truediv_pos, len_pos.
Qed.

Lemma jaccard_empty `{Countable A} : jaccard_similarity (∅ : gset A) ∅ = inr 0%Q.
Proof. reflexivity. Qed.

Lemma jaccard_total `{Countable A} (a b : gset A) :
  ∃ q, jaccard_similarity a b = inr q ∧ (0 <= q <= 1)%Q.
Proof.
  destruct (decide (a ∪ b = ∅)) as [Hu|Hu].
  - apply empty_union_L in Hu as [-> ->]. exists 0%Q. split; [done |].
    split; [apply Qle_refl | discriminate].
  - eexists. split; [by apply jaccard_nonempty |].
    apply ratio_bounds; [apply len_inter_le_union.. | by apply len_pos].
Qed.

(** C3: on sets whose union is non-empty, [jaccard_similarity] returns the
    size of the intersection divided by the size of the union; on two empty
    sets it returns 0. *)
Theorem jaccard_similarity_value `{Countable A} (a b : gset A) :
  (a ∪ b ≠ ∅ →
   ∃ q, jaccard_similarity a b = inr q ∧
        (q == inject_Z (Z.of_nat (size (a ∩ b)))
              / inject_Z (Z.of_nat (size (a ∪ b))))%Q) ∧
  (a = ∅ → b = ∅ → jaccard_similarity a b = inr 0%Q).
Proof.
  split.
  - intros Hu. eexists. split; [by apply jaccard_nonempty |].
    apply Qred_correct.
  - intros -> ->. apply jaccard_empty.
Qed.

(** C7: [jaccard_similarity] is symmetric, is 1 on a non-empty set paired
    with itself, is 0 on two empty sets, and lies between 0 and 1. *)
Theorem jaccard_similarity_algebra `{Countable A} (a b : gset A) :
  jaccard_similarity a b = jaccard_similarity b a ∧
  (a ≠ ∅ → jaccard_similarity a a = inr 1%Q) ∧
  jaccard_similarity (∅ : gset A) ∅ = inr 0%Q ∧
  ∃ q, jaccard_similarity a b = inr q ∧ (0 <= q <= 1)%Q.
Proof.
  split; [| split; [| split]].
  - unfold jaccard_similarity.
    by rewrite (comm_L (∩) a b), (comm_L (∪) a b), (orb_comm (truthy a)).
  - intros Ha. rewrite jaccard_nonempty by (by rewrite (idemp_L (∪))).
    rewrite (idemp_L (∩)), (idemp_L (∪)). f_equal.
    by apply ratio_self, len_pos.
  - apply jaccard_empty.
  - apply jaccard_total.
Qed.

(** ** Sorting and slicing *)

Section sorting.
Context {A : Type} (key : A → Q).

Lemma insert_desc_perm x l : insert_desc key x l ≡ₚ x :: l.
Proof.
  induction l as [|y l IH]; simpl; [done |].
  destruct (Qlt_le_dec (key x) (key y)); [| done].
  rewrite IH. apply Permutation_swap.
Qed.

Lemma sorted_desc_perm l : sorted_desc key l ≡ₚ l.
Proof.
  induction l as [|x l IH]; simpl; [done |].
  unfold sorted_desc in IH |- *. simpl.
  by rewrite insert_desc_perm, IH.
Qed.

Lemma insert_desc_sorted x l :
  StronglySorted (desc_by key) l →
  StronglySorted (desc_by key) (insert_desc key x l).
Proof.
  induction 1 as [|y l Hl IH Hy]; simpl.
  - repeat constructor.
  - destruct (Qlt_le_dec (key x) (key y)) as [Hlt|Hle].
    + constructor; [exact IH |].
      rewrite insert_desc_perm. constructor; [| exact Hy].
      by apply Qlt_le_weak.
    + constructor; [by constructor |].
      constructor; [exact Hle |].
      eapply Forall_impl; [exact Hy |]. intros z Hz.
      unfold desc_by in *. by eapply Qle_trans.
Qed.

Lemma sorted_desc_sorted l : StronglySorted (desc_by key) (sorted_desc key l).
Proof.
  induction l as [|x l IH]; [constructor |].
  by apply insert_desc_sorted.
Qed.
End sorting.

Lemma slice_to_nonneg {A} (l : list A) stop :
  0 ≤ stop → slice_to l stop = take (Z.to_nat stop) l.
Proof. intros Hs. unfold slice_to. case_decide; [lia | done]. Qed.

Lemma slice_to_neg {A} (l : list A) stop :
  stop < 0 → slice_to l stop = take (length l - Z.to_nat (- stop)) l.
Proof.
  intros Hs. unfold slice_to. case_decide; [| lia]. f_equal. lia.
Qed.

Lemma slice_to_sublist {A} (l : list A) stop : slice_to l stop `sublist_of` l.
Proof. unfold slice_to. case_decide; apply sublist_take. Qed.

(** ** The graph *)

Lemma elem_of_nodes (g : Graph) n : n ∈ nodes g ↔ is_Some (g !! n).
Proof. apply elem_of_dom. Qed.

Lemma neighbors_inr (g : Graph) n fs :
  neighbors g n = inr fs ↔ ∃ d, g !! n = Some d ∧ nbrs d = fs.
Proof.
  unfold neighbors. destruct (g !! n) as [d|]; split.
  - intros [= <-]. eauto.
  - by intros (d' & [= <-] & <-).
  - discriminate.
  - by intros (d' & ? & _).
Qed.

Lemma neighbors_present (g : Graph) n :
  n ∈ nodes g → ∃ fs, neighbors g n = inr fs.
Proof.
  intros [d Hd]%elem_of_nodes. exists (nbrs d). apply neighbors_inr. eauto.
Qed.

Lemma neighbors_absent (g : Graph) n :
  n ∉ nodes g → neighbors g n = inl (NetworkXError n).
Proof.
  rewrite elem_of_nodes. rewrite <- eq_None_not_Some. intros Hn.
  unfold neighbors. by rewrite Hn.
Qed.

Lemma neighbors_inl (g : Graph) n x :
  neighbors g n = inl x → (n ∉ nodes g) ∧ x = NetworkXError n.
Proof.
  unfold neighbors. destruct (g !! n) as [d|] eqn:Hn; [discriminate |].
  intros [= <-]. split; [| done].
  rewrite elem_of_nodes, Hn. by intros [? ?].
Qed.


(** *** Building the graph *)

Lemma neighbors_adj (g : Graph) n fs : neighbors g n = inr fs → adj g n = fs.
Proof. intros (d & Hd & <-)%neighbors_inr. unfold adj. by rewrite Hd. Qed.

Lemma adj_elem_of (g : Graph) n w :
  w ∈ adj g n ↔ ∃ d, g !! n = Some d ∧ w ∈ nbrs d.
Proof.
  unfold adj. destruct (g !! n) as [d|]; simpl.
  - split; [eauto | by intros (d' & [= <-] & ?)].
  - split; [by intros ?%not_elem_of_empty | by intros (d' & ? & _)].
Qed.

Lemma nodes_add_node (g : Graph) n a : nodes (add_node g n a) = {[n]} ∪ nodes g.
Proof.
  unfold nodes, add_node. destruct (g !! n); apply dom_insert_L.
Qed.

Lemma adj_add_node (g : Graph) n a m : adj (add_node g n a) m = adj g m.
Proof.
  unfold adj, add_node. destruct (g !! n) as [d|] eqn:Hn.
  - destruct (decide (n = m)) as [<-|Hne].
    + by rewrite lookup_insert_eq, Hn.
    + by rewrite lookup_insert_ne.
  - destruct (decide (n = m)) as [<-|Hne].
    + by rewrite lookup_insert_eq, Hn.
    + by rewrite lookup_insert_ne.
Qed.

Lemma nodes_ensure_node (g : Graph) n : nodes (ensure_node g n) = {[n]} ∪ nodes g.
Proof.
  unfold nodes, ensure_node. destruct (g !! n) as [d|] eqn:Hn.
  - apply elem_of_dom_2 in Hn. apply set_eq. intros x.
    rewrite elem_of_union, elem_of_singleton. split; [auto | by intros [->|?]].
  - apply dom_insert_L.
Qed.

Lemma adj_ensure_node (g : Graph) n m : adj (ensure_node g n) m = adj g m.
Proof.
  unfold adj, ensure_node. destruct (g !! n) as [d|] eqn:Hn; [done |].
  destruct (decide (n = m)) as [<-|Hne].
  - by rewrite lookup_insert_eq, Hn.
  - by rewrite lookup_insert_ne.
Qed.

Lemma nodes_link (g : Graph) u v : nodes (link g u v) = nodes g.
Proof. unfold nodes, link. apply dom_alter_L. Qed.

Lemma adj_link (g : Graph) u v m w :
  u ∈ nodes g →
  w ∈ adj (link g u v) m ↔ (m = u ∧ w = v) ∨ w ∈ adj g m.
Proof.
  intros [d Hd]%elem_of_nodes. unfold adj, link.
  destruct (decide (u = m)) as [<-|Hne].
  - rewrite lookup_alter_eq, Hd. simpl.
    rewrite elem_of_union, elem_of_singleton. tauto.
  - rewrite lookup_alter_ne by done. split; [tauto |].
    intros [[-> _] | Hw]; [done | exact Hw].
Qed.

Lemma nodes_add_edge (g : Graph) u v :
  nodes (add_edge g u v) = {[u; v]} ∪ nodes g.
Proof.
  unfold add_edge.
  rewrite !nodes_link, !nodes_ensure_node.
  apply set_eq. intros x.
  rewrite !elem_of_union, !elem_of_singleton. tauto.
Qed.

Lemma adj_add_edge (g : Graph) u v m w :
  w ∈ adj (add_edge g u v) m ↔
  (m = u ∧ w = v) ∨ (m = v ∧ w = u) ∨ w ∈ adj g m.
Proof.
  unfold add_edge.
  rewrite adj_link; last first.
  { rewrite nodes_link, nodes_ensure_node.
    apply elem_of_union. left. by apply elem_of_singleton. }
  rewrite adj_link; last first.
  { rewrite !nodes_ensure_node.
    apply elem_of_union. right. apply elem_of_union. left.
    by apply elem_of_singleton. }
  rewrite !adj_ensure_node. tauto.
Qed.

Lemma nodes_add_users (g : Graph) (us : list user_row) :
  nodes (foldl (λ g user, add_node g (u_id user) (user_attrs user)) g us)
  = list_to_set (u_id <$> us) ∪ nodes g.
Proof.
  revert g. induction us as [|r us IH]; intros g; simpl.
  - by rewrite (left_id_L ∅ (∪)).
  - rewrite IH, nodes_add_node. apply set_eq. intros x.
    rewrite !elem_of_union, !elem_of_singleton. tauto.
Qed.

Lemma adj_add_users (g : Graph) (us : list user_row) m :
  adj (foldl (λ g user, add_node g (u_id user) (user_attrs user)) g us) m
  = adj g m.
Proof.
  revert g. induction us as [|r us IH]; intros g; simpl; [done |].
  by rewrite IH, adj_add_node.
Qed.

Lemma nodes_add_edges (g : Graph) (rows : list (Z * Z)) :
  nodes (foldl (λ g row, add_edge g row.1 row.2) g rows)
  = list_to_set (rows ≫= λ p, [p.1; p.2]) ∪ nodes g.
Proof.
  revert g. induction rows as [|[a b] rows IH]; intros g; simpl.
  - by rewrite (left_id_L ∅ (∪)).
  - rewrite IH, nodes_add_edge. apply set_eq. intros x.
    rewrite !elem_of_union, !elem_of_singleton. tauto.
Qed.

Lemma adj_add_edges (g : Graph) (rows : list (Z * Z)) m w :
  w ∈ adj (foldl (λ g row, add_edge g row.1 row.2) g rows) m ↔
  (m, w) ∈ rows ∨ (w, m) ∈ rows ∨ w ∈ adj g m.
Proof.
  revert g. induction rows as [|[a b] rows IH]; intros g; simpl.
  - rewrite !elem_of_nil. tauto.
  - rewrite IH, adj_add_edge, !elem_of_cons. split.
    + intros [? | [? | [[-> ->] | [[-> ->] | ?]]]]; auto 10.
    + intros [[[= -> ->] | ?] | [[[= -> ->] | ?] | ?]]; auto 10.
Qed.

Lemma nodes_build (d : DatabaseManager) :
  nodes (_build_graph ∅ d) = user_ids d ∪ friend_endpoints d.
Proof.
  unfold _build_graph, get_all_users.
  rewrite nodes_add_edges, nodes_add_users.
  unfold nodes at 1. rewrite dom_empty_L, (right_id_L ∅ (∪)).
  apply (comm_L (∪)).
Qed.

Lemma adj_build (d : DatabaseManager) m w :
  w ∈ adj (_build_graph ∅ d) m ↔ (m, w) ∈ friends d ∨ (w, m) ∈ friends d.
Proof.
  unfold _build_graph. rewrite adj_add_edges, adj_add_users.
  unfold adj at 1. rewrite lookup_empty. simpl.
  rewrite elem_of_empty. tauto.
Qed.

Lemma friends_fk_endpoints (d : DatabaseManager) :
  friends_fk d → friend_endpoints d ⊆ user_ids d.
Proof.
  intros Hfk x. unfold friend_endpoints.
  rewrite elem_of_list_to_set, list_elem_of_bind.
  intros ([a b] & Hx & Hab).
  unfold friends_fk in Hfk. rewrite Forall_forall in Hfk.
  destruct (Hfk _ Hab) as [Ha Hb]. simpl in Ha, Hb, Hx. apply elem_of_cons in Hx as [-> | Hx]; [done |].
  by apply list_elem_of_singleton in Hx as ->.
Qed.

Lemma norm_pair_swap a b : norm_pair (a, b) = norm_pair (b, a).
Proof. unfold norm_pair. simpl. f_equal; lia. Qed.

Lemma elem_of_edges (g : Graph) p :
  p ∈ edges g ↔ ∃ u v, v ∈ adj g u ∧ p = norm_pair (u, v).
Proof.
  unfold edges. rewrite elem_of_list_to_set, list_elem_of_fmap. split.
  - intros ([u v] & -> & Huv). exists u, v. split; [| done].
    apply list_elem_of_bind in Huv as ([k d] & Hin & Hkd). simpl in Hin.
    apply list_elem_of_fmap in Hin as (v' & [= -> ->] & Hv).
    apply elem_of_map_to_list in Hkd. apply adj_elem_of.
    exists d. split; [done |]. by apply elem_of_elements in Hv.
  - intros (u & v & Huv & ->). exists (u, v). split; [done |].
    apply adj_elem_of in Huv as (d & Hd & Hv).
    apply list_elem_of_bind. exists (u, d). split.
    + simpl. apply list_elem_of_fmap. exists v. split; [done |].
      by apply elem_of_elements.
    + by apply elem_of_map_to_list.
Qed.

Lemma edges_build (d : DatabaseManager) :
  edges (_build_graph ∅ d) = list_to_set (norm_pair <$> friends d).
Proof.
  apply set_eq. intros p.
  rewrite elem_of_edges, elem_of_list_to_set, list_elem_of_fmap. split.
  - intros (u & v & [Huv | Hvu]%adj_build & ->).
    + by exists (u, v).
    + exists (v, u). split; [apply norm_pair_swap | done].
  - intros ([u v] & -> & Huv). exists u, v. split; [| done].
    apply adj_build. by left.
Qed.

(** C6, as amended: the nodes of the built graph are the ids of the
    scanned users together with the ids used in [friends]; for a store
    whose [friends] rows reference existing users, as its foreign keys
    declare, they are exactly the ids of the scanned users.  Two nodes are adjacent exactly
    when a [friends] row joins them in either direction, the edges are the
    distinct unordered pairs of [friends] (a pair stored in both directions
    is one edge), and the empty store gives the empty graph. *)
Theorem build_graph_snapshot (d : DatabaseManager) :
  nodes (_build_graph ∅ d)
    = list_to_set (u_id <$> get_all_users d) ∪ friend_endpoints d ∧
  (friends_fk d →
   nodes (_build_graph ∅ d) = list_to_set (u_id <$> get_all_users d)) ∧
  (∀ a b, b ∈ adj (_build_graph ∅ d) a ↔
          (a, b) ∈ friends d ∨ (b, a) ∈ friends d) ∧
  edges (_build_graph ∅ d) = list_to_set (norm_pair <$> friends d) ∧
  (∀ a b, (a, b) ∈ friends d → (b, a) ∈ friends d →
          norm_pair (a, b) ∈ edges (_build_graph ∅ d) ∧
          norm_pair (b, a) = norm_pair (a, b)) ∧
  _build_graph ∅ empty_store = ∅.
Proof.
  split; [apply nodes_build |]. split; [| split; [| split; [| split]]].
  - intros Hfk. rewrite nodes_build. apply friends_fk_endpoints in Hfk.
    unfold get_all_users. fold (user_ids d). apply set_eq. intros x.
    rewrite elem_of_union. split; [intros [?|?]; auto | auto].
  - intros a b. apply adj_build.
  - apply edges_build.
  - intros a b Hab _. split; [| apply norm_pair_swap].
    rewrite edges_build, elem_of_list_to_set, list_elem_of_fmap.
    by exists (a, b).
  - reflexivity.
Qed.

(** ** The store *)

Lemma find_is_Some {A} (f : A → bool) (l : list A) :
  is_Some (List.find f l) ↔ ∃ x, x ∈ l ∧ f x = true.
Proof.
  induction l as [|y l IH]; simpl.
  - split; [by intros [? ?] | by intros (x & ?%elem_of_nil & _)].
  - destruct (f y) eqn:Hy.
    + split; [intros _; exists y; split; [by left | done] | by eexists].
    + rewrite IH. split.
      * intros (x & Hx & Hf). exists x. split; [by right | done].
      * intros (x & [-> | Hx]%elem_of_cons & Hf); [congruence | eauto].
Qed.


Lemma elem_of_user_ids (d : DatabaseManager) n :
  n ∈ user_ids d ↔ ∃ r, r ∈ users d ∧ u_id r = n.
Proof.
  unfold user_ids. rewrite elem_of_list_to_set, list_elem_of_fmap.
  split; intros (r & ? & ?); exists r; done.
Qed.

Lemma get_user_is_Some (d : DatabaseManager) n :
  is_Some (get_user d n) ↔ n ∈ user_ids d.
Proof.
  unfold get_user. rewrite find_is_Some, elem_of_user_ids.
  split; intros (r & Hr & Hn); exists r; split; try done.
  - by apply bool_decide_eq_true in Hn.
  - by apply bool_decide_eq_true.
Qed.

Lemma foldr_max_ge (s : Z) (l : list Z) x : x ∈ l → x ≤ foldr Z.max s l.
Proof.
  induction l as [|y l IH]; simpl; [by intros ?%elem_of_nil |].
  intros [-> | Hx]%elem_of_cons; [lia |]. apply IH in Hx. lia.
Qed.

Lemma foldr_max_seed (s : Z) (l : list Z) : s ≤ foldr Z.max s l.
Proof. induction l as [|y l IH]; simpl; lia. Qed.

Lemma foldr_max_lt (b s : Z) (l : list Z) :
  s < b → Forall (λ n, n < b) l → foldr Z.max s l < b.
Proof.
  intros Hs. induction 1 as [|y l Hy _ IH]; simpl; lia.
Qed.

Lemma max_rowid_pos : 1 ≤ max_rowid.
Proof. by compute. Qed.


(** The rowid SQLite gives lies above the counter and above every rowid
    in use, and is a rowid. *)
Lemma next_user_id_Some (d : DatabaseManager) i :
  next_user_id d = Some i →
  rowid_available d ∧ users_seq d < i ∧ i ≤ max_rowid ∧
  (∀ n, n ∈ user_ids d → n < i).
Proof.
  unfold next_user_id, user_ids. case_decide as Hav; [| done].
  intros [= <-]. split; [done |].
  unfold rowid_available in Hav. apply Forall_cons in Hav as [Hseq Hids].
  pose proof max_rowid_pos.
  destruct (u_id <$> users d) as [|n ns].
  - repeat split; try lia. intros n. by rewrite elem_of_list_to_set, elem_of_nil.
  - apply Forall_cons in Hids as [Hn Hns].
    pose proof (foldr_max_lt max_rowid n ns Hn Hns).
    pose proof (foldr_max_seed n ns).
    repeat split; try lia. intros m. rewrite elem_of_list_to_set.
    intros [Hm | Hm]%elem_of_cons; [lia |].
    apply (foldr_max_ge n) in Hm. lia.
Qed.

Lemma next_user_id_fresh (d : DatabaseManager) i :
  next_user_id d = Some i → i ∉ user_ids d.
Proof.
  intros (_ & _ & _ & Hlt)%next_user_id_Some Hin. apply Hlt in Hin. lia.
Qed.

(** *** create_user *)


Section create_user_facts.
Variables (d : DatabaseManager) (now name email : string).
Variables (ints : list string) (friend_ids : list Z).

Local Abbreviation r := (create_user d now name email ints friend_ids).

Lemma create_user_None : r.2 = None → r.1 = d.
Proof.
  unfold r, create_user. case_bool_decide; [done |].
  by destruct (next_user_id d).
Qed.

(** What a call that returned the id [i] did. *)
Lemma create_user_inv i :
  r.2 = Some i →
  (email ∉ u_email <$> users d) ∧
  next_user_id d = Some i ∧
  r.1 = (let usrs := users d ++
           [{| u_id := i; u_name := name; u_email := email;
               u_created_at := now |}] in
         {| users := usrs;
            interests := foldl (insert_interest i) (interests d) ints;
            friends := foldl (insert_friend usrs i) (friends d) friend_ids;
            users_seq := i |}).
Proof.
  unfold r, create_user. case_bool_decide; simpl; [done |].
  destruct (next_user_id d) as [j|]; simpl; [| done].
  by intros [= <-].
Qed.


Lemma create_user_Some i :
  r.2 = Some i →
  next_user_id d = Some i ∧
  users r.1 = users d ++
    [{| u_id := i; u_name := name; u_email := email; u_created_at := now |}].
Proof.
  intros (_ & Hi & ->)%create_user_inv. done.
Qed.

Lemma create_user_ids : user_ids d ⊆ user_ids r.1.
Proof.
  destruct r.2 as [i|] eqn:Hr.
  - apply create_user_Some in Hr as [_ Hu]. intros n.
    rewrite !elem_of_user_ids, Hu. intros (x & Hx & Hn).
    exists x. split; [| done]. apply elem_of_app. by left.
  - by rewrite (create_user_None Hr).
Qed.

Lemma create_user_fresh i : r.2 = Some i → i ∉ user_ids d.
Proof.
  intros [Hi _]%create_user_Some. by apply next_user_id_fresh.
Qed.


End create_user_facts.

(** *** The states of the program *)

Lemma app_create_user_graph e c : graph (app_create_user e c).1 = graph e.
Proof. reflexivity. Qed.


Lemma run_calls_reachable e cs : reachable e → reachable (run_calls e cs).1.
Proof.
  revert e. induction cs as [|c cs IH]; intros e He; simpl; [done |].
  by apply IH, reach_create.
Qed.

Lemma reachable_nodes e : reachable e → nodes (graph e) ⊆ user_ids (db e).
Proof.
  induction 1 as [d Hfk | e c He IH].
  - simpl. rewrite nodes_build. apply friends_fk_endpoints in Hfk.
    intros x [?|?]%elem_of_union; auto.
  - simpl. etrans; [exact IH | apply create_user_ids].
Qed.

Lemma reachable_covers e : reachable e → store_covers e.
Proof.
  intros He n Hn. apply get_user_is_Some. by apply reachable_nodes.
Qed.

Lemma covers_nodes e : store_covers e → nodes (graph e) ⊆ user_ids (db e).
Proof. intros He n Hn. apply get_user_is_Some. by apply He. Qed.

Lemma covers_create_user e c :
  store_covers e → store_covers (app_create_user e c).1.
Proof.
  intros He n Hn. simpl in *. apply get_user_is_Some.
  apply create_user_ids. by apply covers_nodes.
Qed.

Lemma run_calls_covers e cs : store_covers e → store_covers (run_calls e cs).1.
Proof.
  revert e. induction cs as [|c cs IH]; intros e He; simpl; [done |].
  by apply IH, covers_create_user.
Qed.



Section engine_facts.
Variable iter_ids : gset Z → list Z.
Variable iter_strs : gset string → list string.
Hypothesis iter_ids_perm : ∀ s, iter_ids s ≡ₚ elements s.

Local Abbreviation similarity_of := (calculate_user_similarity iter_strs).
Local Abbreviation recommend := (get_friend_recommendations iter_ids iter_strs).

Lemma elem_of_iter_ids s c : c ∈ iter_ids s ↔ c ∈ s.
Proof. by rewrite iter_ids_perm, elem_of_elements. Qed.

Lemma NoDup_iter_ids s : NoDup (iter_ids s).
Proof. rewrite iter_ids_perm. apply NoDup_elements. Qed.

(** *** calculate_user_similarity *)

Lemma similarity_present e u1 u2 :
  u1 ∈ nodes (graph e) → u2 ∈ nodes (graph e) →
  ∃ f1 f2 i m,
    neighbors (graph e) u1 = inr f1 ∧
    neighbors (graph e) u2 = inr f2 ∧
    jaccard_similarity (get_user_interests (db e) u1)
                       (get_user_interests (db e) u2) = inr i ∧
    jaccard_similarity f1 f2 = inr m ∧
    (0 <= i <= 1)%Q ∧ (0 <= m <= 1)%Q ∧
    similarity_of e u1 u2 =
      inr {| interest_similarity := i;
             mutual_friends_similarity := m;
             combined_score := Qred (0.6 * m + 0.4 * i);
             common_interests :=
               iter_strs (get_user_interests (db e) u1
                          ∩ get_user_interests (db e) u2);
             mutual_friends_count := len (f1 ∩ f2) |}.
Proof.
  intros [f1 H1]%neighbors_present [f2 H2]%neighbors_present.
  destruct (jaccard_total (get_user_interests (db e) u1)
              (get_user_interests (db e) u2)) as (i & Hi & Hib).
  destruct (jaccard_total f1 f2) as (m & Hm & Hmb).
  exists f1, f2, i, m. repeat split; try done; try tauto.
  unfold calculate_user_similarity. rewrite H1, H2. simpl.
  rewrite Hi. simpl. rewrite Hm. done.
Qed.

Lemma similarity_inl e u1 u2 x :
  similarity_of e u1 u2 = inl x →
  ((u1 ∉ nodes (graph e)) ∨ (u2 ∉ nodes (graph e))) ∧
  ∃ n, x = NetworkXError n.
Proof.
  intros Hx.
  destruct (decide (u1 ∈ nodes (graph e))) as [H1|H1];
    [destruct (decide (u2 ∈ nodes (graph e))) as [H2|H2] |].
  - destruct (similarity_present e u1 u2 H1 H2)
      as (?&?&?&?&_&_&_&_&_&_&Hs). congruence.
  - split; [by right |].
    destruct (neighbors_present _ _ H1) as [f1 Hf1].
    unfold calculate_user_similarity in Hx.
    rewrite Hf1, (neighbors_absent _ _ H2) in Hx. simpl in Hx.
    injection Hx as <-. eauto.
  - split; [by left |].
    unfold calculate_user_similarity in Hx.
    rewrite (neighbors_absent _ _ H1) in Hx. simpl in Hx.
    injection Hx as <-. eauto.
Qed.

Lemma similarity_absent e u1 u2 :
  (u1 ∉ nodes (graph e)) ∨ (u2 ∉ nodes (graph e)) →
  ∃ n, similarity_of e u1 u2 = inl (NetworkXError n).
Proof.
  intros Habs. destruct (similarity_of e u1 u2) as [x|s] eqn:Hs.
  - apply similarity_inl in Hs as [_ [n ->]]. eauto.
  - exfalso. unfold calculate_user_similarity in Hs.
    apply bind_inr in Hs as (f1 & Hf1 & Hs).
    apply bind_inr in Hs as (f2 & Hf2 & _).
    apply neighbors_inr in Hf1 as (d1 & Hd1 & _).
    apply neighbors_inr in Hf2 as (d2 & Hd2 & _).
    destruct Habs as [Ha|Ha]; apply Ha, elem_of_nodes; eauto.
Qed.

(** The call with any two integers: the SELECTs bind the ids first. *)
Lemma py_similarity_in_range e u1 u2 :
  sqlite_integer u1 → sqlite_integer u2 →
  py_calculate_user_similarity iter_strs e u1 u2 = similarity_of e u1 u2.
Proof.
  intros H1 H2.
  unfold py_calculate_user_similarity, py_get_user_interests, bind_integer.
  by rewrite !decide_True by done.
Qed.

Lemma py_similarity_out_of_range e u1 u2 :
  ¬ sqlite_integer u1 ∨ ¬ sqlite_integer u2 →
  py_calculate_user_similarity iter_strs e u1 u2 = inl OverflowError.
Proof.
  intros Hout.
  unfold py_calculate_user_similarity, py_get_user_interests, bind_integer.
  destruct (decide (sqlite_integer u1)) as [H1 | H1]; [| done]. simpl.
  destruct (decide (sqlite_integer u2)) as [H2 | H2]; [| done].
  by destruct Hout.
Qed.

(** C4: for two users of the graph, [calculate_user_similarity] returns
    a dict whose interest similarity is the Jaccard similarity of the two
    interest sets, whose mutual-friends similarity is the Jaccard
    similarity of the two neighbour sets, and whose combined score is
    0.6 times the latter plus 0.4 times the former, between 0 and 1. *)
Theorem calculate_user_similarity_combined e u1 u2 :
  u1 ∈ nodes (graph e) → u2 ∈ nodes (graph e) →
  ∃ sim f1 f2,
    similarity_of e u1 u2 = inr sim ∧
    neighbors (graph e) u1 = inr f1 ∧
    neighbors (graph e) u2 = inr f2 ∧
    jaccard_similarity (get_user_interests (db e) u1)
                       (get_user_interests (db e) u2)
      = inr (interest_similarity sim) ∧
    jaccard_similarity f1 f2 = inr (mutual_friends_similarity sim) ∧
    (combined_score sim ==
       0.6 * mutual_friends_similarity sim
       + 0.4 * interest_similarity sim)%Q ∧
    (0 <= combined_score sim <= 1)%Q.
Proof.
  intros H1 H2.
  destruct (similarity_present e u1 u2 H1 H2)
    as (f1 & f2 & i & m & Hf1 & Hf2 & Hi & Hm & Hib & Hmb & Hs).
  eexists _, f1, f2. split; [exact Hs |]. simpl.
  repeat split; try done.
  - apply Qred_correct.
  - by apply combined_bounds.
  - by apply combined_bounds.
Qed.

(** C10: for two users of the graph, [calculate_user_similarity] always
    returns a dict; the division in [jaccard_similarity] never raises,
    whatever the two sets are. *)
Theorem calculate_user_similarity_total e u1 u2 :
  u1 ∈ nodes (graph e) → u2 ∈ nodes (graph e) →
  succeeds (similarity_of e u1 u2) ∧
  succeeds (jaccard_similarity (get_user_interests (db e) u1)
                               (get_user_interests (db e) u2)) ∧
  (∀ f1 f2 : gset Z, jaccard_similarity f1 f2 ≠ inl ZeroDivisionError) ∧
  (∀ i1 i2 : gset string, jaccard_similarity i1 i2 ≠ inl ZeroDivisionError).
Proof.
  intros H1 H2.
  destruct (similarity_present e u1 u2 H1 H2)
    as (f1 & f2 & i & m & Hf1 & Hf2 & Hi & Hm & Hib & Hmb & Hs).
  split; [by eexists |]. split; [by eexists |].
  split; intros a b Hz;
    destruct (jaccard_total a b) as (q & Hq & _); congruence.
Qed.

(** *** get_friend_recommendations *)

Lemma entry_for_id e u c r : entry_for iter_strs e u c r → rec_user_id r = c.
Proof. by intros (?&?&_&_&_&?&_). Qed.

Lemma entry_for_positive e u c r :
  entry_for iter_strs e u c r → positive_candidate iter_strs e u c.
Proof. intros (s&?&Hs&Hp&_). by exists s. Qed.

Lemma recommend_one_present e u c acc :
  u ∈ nodes (graph e) → c ∈ nodes (graph e) →
  (¬ positive_candidate iter_strs e u c ∧
   recommend_one iter_strs e u c acc = inr acc) ∨
  (positive_candidate iter_strs e u c ∧ get_user (db e) c = None ∧
   recommend_one iter_strs e u c acc = inl TypeError) ∨
  (∃ r, entry_for iter_strs e u c r ∧
        recommend_one iter_strs e u c acc = inr (acc ++ [r])).
Proof.
  intros Hu Hc.
  destruct (similarity_present e u c Hu Hc)
    as (f1 & f2 & i & m & _ & _ & _ & _ & _ & _ & Hs).
  unfold recommend_one. rewrite Hs. simpl.
  destruct (Qlt_le_dec 0 (Qred (0.6 * m + 0.4 * i))) as [Hp|Hn].
  - destruct (get_user (db e) c) as [user|] eqn:Hg.
    + right; right. eexists. split; [| reflexivity].
      eexists _, user. split; [exact Hs |]. simpl. by repeat split.
    + right; left. split; [| done]. eexists. split; [exact Hs | exact Hp].
  - left. split; [| done]. intros (s & Hs' & Hp).
    rewrite Hs in Hs'. injection Hs' as <-. simpl in Hp.
    by apply Qle_not_lt in Hn.
Qed.

Lemma recommend_loop_spec e u cids acc :
  u ∈ nodes (graph e) → Forall (λ c, c ∈ nodes (graph e)) cids →
  (recommend_loop iter_strs e u cids acc = inl TypeError ∧
   ∃ c, c ∈ cids ∧ positive_candidate iter_strs e u c ∧
        get_user (db e) c = None) ∨
  (∃ out,
     recommend_loop iter_strs e u cids acc = inr (acc ++ out) ∧
     rec_user_id <$> out `sublist_of` cids ∧
     Forall (λ r, entry_for iter_strs e u (rec_user_id r) r) out ∧
     ∀ c, c ∈ cids → positive_candidate iter_strs e u c →
          c ∈ rec_user_id <$> out).
Proof.
  intros Hu Hcs. revert acc.
  induction Hcs as [|c rest Hc Hrest IH]; intros acc.
  - right. exists []. rewrite app_nil_r. by repeat split.
  - simpl.
    destruct (recommend_one_present e u c acc Hu Hc)
      as [[Hnp ->] | [(Hp & Hg & ->) | (r & Hr & ->)]]; simpl.
    + destruct (IH acc) as [[-> (c' & Hc' & Hp' & Hg')] | (out & -> & Hsub & Hall & Hcov)].
      * left. split; [done |]. exists c'. split; [by right | done].
      * right. exists out. repeat split; try done.
        -- by apply sublist_cons.
        -- intros c' [-> | Hc']%elem_of_cons Hp'; [done | by apply Hcov].
    + left. split; [done |]. exists c. split; [by left | done].
    + destruct (IH (acc ++ [r]))
        as [[-> (c' & Hc' & Hp' & Hg')] | (out & -> & Hsub & Hall & Hcov)].
      * left. split; [done |]. exists c'. split; [by right | done].
      * right. exists (r :: out). rewrite <- app_assoc. simpl.
        pose proof (entry_for_id _ _ _ _ Hr) as Hid.
        repeat split; try done.
        -- rewrite Hid. by apply sublist_skip.
        -- constructor; [by rewrite Hid | done].
        -- intros c' [-> | Hc']%elem_of_cons Hp'.
           ++ rewrite Hid. by left.
           ++ right. by apply Hcov.
Qed.

Lemma candidates_nodes (g : Graph) u fs c :
  c ∈ candidates g u fs ↔ c ∈ nodes g ∧ (c ∉ fs) ∧ c ≠ u.
Proof.
  unfold candidates.
  rewrite !elem_of_difference, elem_of_singleton. tauto.
Qed.

Lemma recommend_spec e u limit fs :
  neighbors (graph e) u = inr fs →
  (recommend e u limit = inl TypeError ∧
   ∃ c, c ∈ candidates (graph e) u fs ∧
        positive_candidate iter_strs e u c ∧
        get_user (db e) c = None) ∨
  (∃ full,
     recommend e u limit = inr (slice_to full limit) ∧
     StronglySorted score_ge full ∧
     NoDup (rec_user_id <$> full) ∧
     Forall (λ r, entry_for iter_strs e u (rec_user_id r) r) full ∧
     ∀ c, c ∈ rec_user_id <$> full ↔
          c ∈ candidates (graph e) u fs ∧
          positive_candidate iter_strs e u c).
Proof.
  intros Hfs.
  assert (u ∈ nodes (graph e)) as Hu.
  { apply neighbors_inr in Hfs as (d & Hd & _). apply elem_of_nodes. eauto. }
  set (cids := iter_ids (candidates (graph e) u fs)).
  assert (Forall (λ c, c ∈ nodes (graph e)) cids) as Hcs.
  { apply Forall_forall. intros c Hc%elem_of_iter_ids.
    by apply candidates_nodes in Hc as [? _]. }
  unfold get_friend_recommendations. rewrite Hfs. simpl. fold cids.
  destruct (recommend_loop_spec e u cids [] Hu Hcs)
    as [[-> (c & Hc & Hp & Hg)] | (out & -> & Hsub & Hall & Hcov)]; simpl.
  - left. split; [done |]. exists c. by apply elem_of_iter_ids in Hc.
  - right. exists (sorted_desc similarity_score out).
    pose proof (sorted_desc_perm similarity_score out) as Hperm.
    split; [done |]. split; [apply sorted_desc_sorted |].
    split; [| split].
    + rewrite Hperm. eapply sublist_NoDup; [| exact Hsub].
      apply NoDup_iter_ids.
    + by rewrite Hperm.
    + intros c. rewrite Hperm. split.
      * intros Hc. split.
        -- apply elem_of_iter_ids. eapply elem_of_sublist; [exact Hc | exact Hsub].
        -- apply list_elem_of_fmap in Hc as (r & -> & Hr).
           rewrite Forall_forall in Hall.
           eapply entry_for_positive, Hall, Hr.
      * intros [Hc Hp]. apply Hcov; [| done]. by apply elem_of_iter_ids.
Qed.

(** C5: [get_friend_recommendations] raises the unknown-node error
    exactly when the user is not a node of the graph.  A call of
    [calculate_user_similarity] raises it exactly when both ids are 64-bit
    integers and one of the two users is not a node; when an id is not a
    64-bit integer the SELECT of the interests, which comes first, raises
    [OverflowError] instead.  For a user of the graph none of whose
    candidates scores above 0 the recommendations are the empty list. *)
Theorem unknown_node_errors e u u1 u2 limit :
  ((∃ n, recommend e u limit = inl (NetworkXError n)) ↔
   u ∉ nodes (graph e)) ∧
  ((∃ n, py_calculate_user_similarity iter_strs e u1 u2
         = inl (NetworkXError n)) ↔
   sqlite_integer u1 ∧ sqlite_integer u2 ∧
   ((u1 ∉ nodes (graph e)) ∨ (u2 ∉ nodes (graph e)))) ∧
  (py_calculate_user_similarity iter_strs e u1 u2 = inl OverflowError ↔
   ¬ sqlite_integer u1 ∨ ¬ sqlite_integer u2) ∧
  (sqlite_integer u1 → sqlite_integer u2 →
   py_calculate_user_similarity iter_strs e u1 u2
   = calculate_user_similarity iter_strs e u1 u2) ∧
  (∀ fs, neighbors (graph e) u = inr fs →
         (∀ c, c ∈ candidates (graph e) u fs →
               ¬ positive_candidate iter_strs e u c) →
         recommend e u limit = inr []).
Proof.
  assert (sqlite_integer u1 ∧ sqlite_integer u2 ∨
          (¬ sqlite_integer u1 ∨ ¬ sqlite_integer u2)) as Hrange.
  { destruct (decide (sqlite_integer u1));
      destruct (decide (sqlite_integer u2)); tauto. }
  split; [| split; [| split; [| split]]].
  - split.
    + intros [n Hn] Hu.
      destruct (neighbors_present _ _ Hu) as [fs Hfs].
      destruct (recommend_spec e u limit fs Hfs)
        as [[Ht _] | (full & Hr & _)]; congruence.
    + intros Hu. exists u. unfold get_friend_recommendations.
      by rewrite (neighbors_absent _ _ Hu).
  - split.
    + intros [n Hn]. destruct Hrange as [[H1 H2] | Hout].
      * rewrite py_similarity_in_range in Hn by done.
        by apply similarity_inl in Hn as [? _].
      * by rewrite py_similarity_out_of_range in Hn.
    + intros (H1 & H2 & Habs). rewrite py_similarity_in_range by done.
      by apply similarity_absent.
  - split.
    + intros Hover. destruct Hrange as [[H1 H2] | Hout]; [| done].
      rewrite py_similarity_in_range in Hover by done.
      by apply similarity_inl in Hover as [_ [n ?]].
    + apply py_similarity_out_of_range.
  - apply py_similarity_in_range.
  - intros fs Hfs Hnone.
    destruct (recommend_spec e u limit fs Hfs)
      as [[_ (c & Hc & Hp & _)] | (full & -> & _ & _ & _ & Hmem)].
    + by destruct (Hnone c Hc).
    + destruct full as [|r full].
      { unfold slice_to. case_decide; by rewrite take_nil. }
      exfalso. destruct (Hmem (rec_user_id r)) as [Hin _].
      destruct Hin as [Hc Hp]; [by left |]. by destruct (Hnone _ Hc).
Qed.

Lemma recommend_inr e u limit recs :
  recommend e u limit = inr recs →
  ∃ fs full,
    neighbors (graph e) u = inr fs ∧
    recs = slice_to full limit ∧
    StronglySorted score_ge full ∧
    NoDup (rec_user_id <$> full) ∧
    Forall (λ r, entry_for iter_strs e u (rec_user_id r) r) full ∧
    ∀ c, c ∈ rec_user_id <$> full ↔
         c ∈ candidates (graph e) u fs ∧
         positive_candidate iter_strs e u c.
Proof.
  intros Hr.
  assert (∃ fs, neighbors (graph e) u = inr fs) as [fs Hfs].
  { unfold get_friend_recommendations in Hr.
    apply bind_inr in Hr as (fs & Hfs & _). eauto. }
  destruct (recommend_spec e u limit fs Hfs)
    as [[Ht _] | (full & Hfull & Hrest)]; [congruence |].
  exists fs, full. split; [done |]. split; [congruence | exact Hrest].
Qed.

Lemma recommend_covered e u limit :
  store_covers e → u ∈ nodes (graph e) →
  ∃ fs full,
    neighbors (graph e) u = inr fs ∧
    recommend e u limit = inr (slice_to full limit) ∧
    StronglySorted score_ge full ∧
    NoDup (rec_user_id <$> full) ∧
    Forall (λ r, entry_for iter_strs e u (rec_user_id r) r) full ∧
    ∀ c, c ∈ rec_user_id <$> full ↔
         c ∈ candidates (graph e) u fs ∧
         positive_candidate iter_strs e u c.
Proof.
  intros He Hu.
  destruct (neighbors_present _ _ Hu) as [fs Hfs].
  destruct (recommend_spec e u limit fs Hfs)
    as [[_ (c & Hc & _ & Hg)] | (full & Hfull)].
  - exfalso. apply candidates_nodes in Hc as [Hc _].
    apply He in Hc as [row Hrow]. congruence.
  - exists fs, full. by split.
Qed.

Lemma covers_candidates e u :
  store_covers e → candidates_covered iter_strs e u.
Proof.
  intros He fs c _ Hc _. apply He. by apply candidates_nodes in Hc as [? _].
Qed.

Lemma recommend_candidates_covered e u limit :
  candidates_covered iter_strs e u → u ∈ nodes (graph e) →
  ∃ fs full,
    neighbors (graph e) u = inr fs ∧
    recommend e u limit = inr (slice_to full limit) ∧
    StronglySorted score_ge full ∧
    NoDup (rec_user_id <$> full) ∧
    Forall (λ r, entry_for iter_strs e u (rec_user_id r) r) full ∧
    ∀ c, c ∈ rec_user_id <$> full ↔
         c ∈ candidates (graph e) u fs ∧
         positive_candidate iter_strs e u c.
Proof.
  intros He Hu.
  destruct (neighbors_present _ _ Hu) as [fs Hfs].
  destruct (recommend_spec e u limit fs Hfs)
    as [[_ (c & Hc & Hp & Hg)] | (full & Hfull)].
  - exfalso. destruct (He fs c Hfs Hc Hp) as [row Hrow]. congruence.
  - exists fs, full. by split.
Qed.

Lemma slice_members e u fs (full : list recommendation) limit r :
  (∀ c, c ∈ rec_user_id <$> full ↔
        c ∈ candidates (graph e) u fs ∧
        positive_candidate iter_strs e u c) →
  r ∈ slice_to full limit →
  rec_user_id r ∈ nodes (graph e) ∧ rec_user_id r ≠ u ∧
  (rec_user_id r ∉ fs).
Proof.
  intros Hmem Hr.
  assert (rec_user_id r ∈ rec_user_id <$> full) as Hin.
  { apply list_elem_of_fmap. exists r. split; [done |].
    eapply elem_of_sublist; [exact Hr | apply slice_to_sublist]. }
  apply Hmem in Hin as [Hc _]. apply candidates_nodes in Hc. tauto.
Qed.

(** C1, as amended: for a user of the graph and a limit of at least 0,
    when every candidate that scores above 0 still has its row in [users]
    (as it has when every node has one), [get_friend_recommendations]
    returns the first [limit] entries of a list that holds one entry for
    each node that is neither the user nor one of its neighbours and
    scores strictly above 0, ordered by score, largest first; no returned
    entry is the user or one of its neighbours, and at most [limit]
    entries are returned. *)
Theorem get_friend_recommendations_ranked e u limit :
  (store_covers e → candidates_covered iter_strs e u) ∧
  (candidates_covered iter_strs e u → u ∈ nodes (graph e) → 0 ≤ limit →
   ∃ fs full,
     neighbors (graph e) u = inr fs ∧
     recommend e u limit = inr (take (Z.to_nat limit) full) ∧
     StronglySorted score_ge full ∧
     NoDup (rec_user_id <$> full) ∧
     Forall (λ r, entry_for iter_strs e u (rec_user_id r) r) full ∧
     (∀ c, c ∈ rec_user_id <$> full ↔
           c ∈ nodes (graph e) ∖ fs ∖ {[u]} ∧
           positive_candidate iter_strs e u c) ∧
     (∀ r, r ∈ take (Z.to_nat limit) full →
           rec_user_id r ≠ u ∧ (rec_user_id r ∉ fs)) ∧
     Z.of_nat (length (take (Z.to_nat limit) full)) ≤ limit).
Proof.
  split; [apply covers_candidates |].
  intros He Hu Hl.
  destruct (recommend_candidates_covered e u limit He Hu)
    as (fs & full & Hfs & Hr & Hsort & Hnd & Hall & Hmem).
  rewrite slice_to_nonneg in Hr by done.
  exists fs, full.
  do 5 (split; [done |]). split; [exact Hmem |]. split.
  - intros r Hin. rewrite <- (slice_to_nonneg full limit Hl) in Hin.
    apply (slice_members e u fs full limit r Hmem) in Hin. tauto.
  - rewrite length_take. lia.
Qed.

(** C9, as amended: for a user of the graph and a negative limit, when
    every candidate that scores above 0 still has its row in [users] (as
    it has when every node has one), [get_friend_recommendations] does not
    raise: it returns the ranked list of positively scored candidates
    without its last [-limit] entries, which is non-empty as soon as there
    are more than [-limit] such candidates. *)
Theorem get_friend_recommendations_negative_limit e u limit :
  (store_covers e → candidates_covered iter_strs e u) ∧
  (candidates_covered iter_strs e u → u ∈ nodes (graph e) → limit < 0 →
   ∃ fs full,
     neighbors (graph e) u = inr fs ∧
     recommend e u limit
       = inr (take (length full - Z.to_nat (- limit)) full) ∧
     StronglySorted score_ge full ∧
     NoDup (rec_user_id <$> full) ∧
     Forall (λ r, entry_for iter_strs e u (rec_user_id r) r) full ∧
     (∀ c, c ∈ rec_user_id <$> full ↔
           c ∈ nodes (graph e) ∖ fs ∖ {[u]} ∧
           positive_candidate iter_strs e u c) ∧
     ((Z.to_nat (- limit) < length full)%nat →
      take (length full - Z.to_nat (- limit)) full ≠ [])).
Proof.
  split; [apply covers_candidates |].
  intros He Hu Hl.
  destruct (recommend_candidates_covered e u limit He Hu)
    as (fs & full & Hfs & Hr & Hsort & Hnd & Hall & Hmem).
  rewrite slice_to_neg in Hr by done.
  exists fs, full.
  do 5 (split; [done |]). split; [exact Hmem |].
  intros Hlen Hnil. apply (f_equal length) in Hnil.
  rewrite length_take in Hnil. simpl in Hnil. lia.
Qed.

(** *** Queries and later writes *)






(** *** create_user and the snapshot *)



End engine_facts.

(** * The theorems on sample stores *)

Lemma elements_enumerates `{Countable A} (s : gset A) :
  elements s ≡ₚ elements s.
Proof. done. Qed.

Lemma store_interests_reachable : reachable (new_engine store_interests).
Proof. apply reach_new. unfold friends_fk. compute_done. Qed.

Lemma store_interests_covers : store_covers (new_engine store_interests).
Proof. apply reachable_covers, store_interests_reachable. Qed.

Lemma store_friends_fk : friends_fk store_friends.
Proof. unfold friends_fk. compute_done. Qed.

(** The scenarios of the specification, run on the model. *)

Example scenario_interest_ranking :
  sum_map id (fmap rec_user_id)
    (get_friend_recommendations elements elements
       (new_engine store_interests) 1 5)
  = inr [3; 2] ∧
  jaccard_similarity (get_user_interests store_interests 1)
                     (get_user_interests store_interests 2)
  = inr (1 # 3)%Q.
Proof. split; compute_done. Qed.

Example scenario_shared_friend :
  sum_map id
    (λ s, (mutual_friends_similarity s, combined_score s, mutual_friends_count s))
    (calculate_user_similarity elements (new_engine store_friends) 1 2)
  = inr (1%Q, (3 # 5)%Q, 1).
Proof. compute_done. Qed.

Example scenario_unknown_user :
  get_friend_recommendations elements elements (new_engine store_plain) 7 5
  = inl (NetworkXError 7).
Proof. compute_done. Qed.

Example scenario_stale_snapshot :
  (run_calls (new_engine store_interests) [sample_call]).2 = [Some 4] ∧
  interests (db (run_calls (new_engine store_interests) [sample_call]).1)
  = interests store_interests ++ [(4, "a"); (4, "b")] ∧
  friends (db (run_calls (new_engine store_interests) [sample_call]).1)
  = [(4, 1); (1, 4)] ∧
  get_friend_recommendations elements elements
    (run_calls (new_engine store_interests) [sample_call]).1 4 5
  = inl (NetworkXError 4).
Proof. repeat split; compute_done. Qed.

Lemma jaccard_similarity_value_witness :
  sample_a ∪ sample_b ≠ ∅ ∧
  ∃ q, jaccard_similarity sample_a sample_b = inr q ∧
       (q == inject_Z (Z.of_nat (size (sample_a ∩ sample_b)))
             / inject_Z (Z.of_nat (size (sample_a ∪ sample_b))))%Q.
Proof.
  split; [compute_done |].
  apply (jaccard_similarity_value sample_a sample_b).
  compute_done.
Defined.

Lemma jaccard_similarity_algebra_witness :
  sample_a ≠ ∅ ∧ jaccard_similarity sample_a sample_a = inr 1%Q.
Proof.
  split; [compute_done |].
  apply (jaccard_similarity_algebra sample_a sample_a).
  compute_done.
Defined.

Lemma calculate_user_similarity_combined_witness :
  1 ∈ nodes (graph (new_engine store_interests)) ∧
  2 ∈ nodes (graph (new_engine store_interests)) ∧
  ∃ sim,
    calculate_user_similarity elements (new_engine store_interests) 1 2
      = inr sim ∧
    (combined_score sim ==
       0.6 * mutual_friends_similarity sim
       + 0.4 * interest_similarity sim)%Q ∧
    (0 <= combined_score sim <= 1)%Q.
Proof.
  split; [compute_done |]. split; [compute_done |].
  destruct (calculate_user_similarity_combined elements
              (new_engine store_interests) 1 2)
    as (sim & _ & _ & Hs & _ & _ & _ & _ & Hc & Hb);
    [compute_done | compute_done |].
  exists sim. split; [exact Hs |]. split; [exact Hc | exact Hb].
Defined.

Lemma calculate_user_similarity_total_witness :
  1 ∈ nodes (graph (new_engine store_plain)) ∧
  2 ∈ nodes (graph (new_engine store_plain)) ∧
  get_user_interests store_plain 1 = ∅ ∧
  neighbors (graph (new_engine store_plain)) 1 = inr ∅ ∧
  succeeds (calculate_user_similarity elements (new_engine store_plain) 1 2).
Proof.
  split; [compute_done |]. split; [compute_done |].
  split; [compute_done |]. split; [compute_done |].
  apply (calculate_user_similarity_total elements
           (new_engine store_plain) 1 2); compute_done.
Defined.

Lemma unknown_node_errors_witness :
  neighbors (graph (new_engine store_plain)) 1 = inr ∅ ∧
  get_friend_recommendations elements elements (new_engine store_plain) 1 5
    = inr [] ∧
  ((∃ n, get_friend_recommendations elements elements
           (new_engine store_plain) 7 5 = inl (NetworkXError n)) ↔
   7 ∉ nodes (graph (new_engine store_plain))) ∧
  (∃ n, py_calculate_user_similarity elements (new_engine store_plain) 1 7
        = inl (NetworkXError n)) ∧
  py_calculate_user_similarity elements (new_engine store_plain) 1 (2 ^ 63)
    = inl OverflowError.
Proof.
  assert (neighbors (graph (new_engine store_plain)) 1 = inr ∅) as Hn
    by compute_done.
  split; [exact Hn |].
  split; [| split; [| split]].
  - destruct (unknown_node_errors elements elements elements_enumerates
                (new_engine store_plain) 1 1 2 5) as (_ & _ & _ & _ & Hempty).
    apply (Hempty ∅ Hn).
    intros c Hc (s & Hs & Hp).
    apply elem_of_elements in Hc.
    assert (elements (candidates (graph (new_engine store_plain)) 1 ∅) = [2])
      as Hel by compute_done.
    rewrite Hel in Hc. apply list_elem_of_singleton in Hc as ->.
    vm_compute in Hs. injection Hs as <-. vm_compute in Hp. discriminate.
  - destruct (unknown_node_errors elements elements elements_enumerates
                (new_engine store_plain) 7 1 2 5) as (Habsent & _).
    exact Habsent.
  - destruct (unknown_node_errors elements elements elements_enumerates
                (new_engine store_plain) 1 1 7 5) as (_ & Hunknown & _).
    apply Hunknown. split; [compute_done |]. split; [compute_done |].
    right. compute_done.
  - destruct (unknown_node_errors elements elements elements_enumerates
                (new_engine store_plain) 1 1 (2 ^ 63) 5)
      as (_ & _ & Hover & _).
    apply Hover. right. compute_done.
Defined.

(** C5 as stated fails: for an id that is no node and no 64-bit integer,
    [calculate_user_similarity] raises [OverflowError], not the
    unknown-node error. *)
Lemma overflow_counterexample :
  (2 ^ 63 ∉ nodes (graph (new_engine store_plain))) ∧
  py_calculate_user_similarity elements (new_engine store_plain) (2 ^ 63) 1
    = inl OverflowError ∧
  ¬ ∃ n, py_calculate_user_similarity elements (new_engine store_plain)
           (2 ^ 63) 1 = inl (NetworkXError n).
Proof.
  assert (py_calculate_user_similarity elements (new_engine store_plain)
            (2 ^ 63) 1 = inl OverflowError) as Hover by reflexivity.
  split; [compute_done |]. split; [exact Hover |].
  intros [n Hn]. rewrite Hover in Hn. discriminate.
Qed.

Lemma build_graph_snapshot_witness :
  friends_fk store_friends ∧
  nodes (_build_graph ∅ store_friends)
    = list_to_set (u_id <$> get_all_users store_friends) ∧
  edges (_build_graph ∅ store_friends)
    = list_to_set (norm_pair <$> friends store_friends).
Proof.
  split; [exact store_friends_fk |].
  destruct (build_graph_snapshot store_friends) as (_ & Hn & _ & He & _).
  split; [exact (Hn store_friends_fk) | exact He].
Defined.

(** C6 as stated fails: a [friends] row that names an id without a row in
    [users] makes that id a node. *)
Lemma build_graph_counterexample :
  nodes (_build_graph ∅ store_dangling)
    ≠ list_to_set (u_id <$> get_all_users store_dangling) ∧
  9 ∈ nodes (_build_graph ∅ store_dangling) ∧
  get_user store_dangling 9 = None.
Proof.
  split; [| split]; compute_done.
Qed.

Lemma get_friend_recommendations_ranked_witness :
  store_covers (app_create_user (new_engine store_interests) sample_call).1 ∧
  1 ∈ nodes (graph (app_create_user (new_engine store_interests) sample_call).1) ∧
  0 ≤ 1 ∧
  ∃ recs,
    get_friend_recommendations elements elements
      (app_create_user (new_engine store_interests) sample_call).1 1 1
      = inr recs ∧
    Z.of_nat (length recs) ≤ 1.
Proof.
  assert (store_covers (app_create_user (new_engine store_interests) sample_call).1)
    as He by (apply reachable_covers, reach_create, store_interests_reachable).
  split; [exact He |]. split; [compute_done |]. split; [lia |].
  destruct (get_friend_recommendations_ranked elements elements
              elements_enumerates
              (app_create_user (new_engine store_interests) sample_call).1 1 1)
    as [Hcov Hranked].
  destruct (Hranked (Hcov He))
    as (fs & full & _ & Hr & _ & _ & _ & _ & _ & Hlen);
    [compute_done | lia |].
  eexists. split; [exact Hr | exact Hlen].
Defined.

(** C1 as stated fails: user 1 is a node, its candidate 9 shares the
    friend 2 with it and so scores above 0, but 9 has no row in [users]
    and the loop subscripts [None]. *)
Lemma dangling_row_counterexample :
  1 ∈ nodes (graph (new_engine store_dangling)) ∧
  0 ≤ 5 ∧
  get_friend_recommendations elements elements (new_engine store_dangling) 1 5
    = inl TypeError.
Proof.
  split; [compute_done |]. split; [lia | reflexivity].
Qed.

Lemma get_friend_recommendations_negative_limit_witness :
  store_covers (new_engine store_interests) ∧
  1 ∈ nodes (graph (new_engine store_interests)) ∧
  -1 < 0 ∧
  (∃ full,
     get_friend_recommendations elements elements
       (new_engine store_interests) 1 (-1)
     = inr (take (length full - Z.to_nat (- -1)) full)) ∧
  ∃ r,
    get_friend_recommendations elements elements
      (new_engine store_interests) 1 (-1) = inr [r] ∧
    rec_user_id r = 3.
Proof.
  split; [exact store_interests_covers |].
  split; [compute_done |]. split; [lia |]. split.
  - destruct (get_friend_recommendations_negative_limit elements elements
                elements_enumerates (new_engine store_interests) 1 (-1))
      as [Hcov Hranked].
    destruct (Hranked (Hcov store_interests_covers))
      as (fs & full & _ & Hr & _); [compute_done | lia |].
    exists full. exact Hr.
  - eexists. split; [vm_compute; reflexivity | reflexivity].
Defined.

(** C9 as stated fails: with a negative limit too, a candidate that scores
    above 0 and has no row in [users] makes the call raise. *)
Lemma negative_limit_counterexample :
  1 ∈ nodes (graph (new_engine store_dangling)) ∧
  -1 < 0 ∧
  get_friend_recommendations elements elements
    (new_engine store_dangling) 1 (-1) = inl TypeError.
Proof.
  split; [compute_done |]. split; [lia | reflexivity].
Qed.





(** * Further properties of the store *)


Lemma insert_friend_step_prefix usrs uid (tbl : list (Z * Z)) fid :
  tbl `prefix_of` insert_friend usrs uid tbl fid.
Proof.
  unfold insert_friend. case_bool_decide; [| done].
  case_decide; [done |]. case_decide.
  - by apply prefix_app_r.
  - rewrite <- app_assoc. by apply prefix_app_r.
Qed.

Lemma insert_friend_prefix usrs uid (tbl : list (Z * Z)) fids :
  tbl `prefix_of` foldl (insert_friend usrs uid) tbl fids.
Proof.
  revert tbl. induction fids as [|f fids IH]; intros tbl; simpl; [done |].
  etrans; [apply insert_friend_step_prefix | apply IH].
Qed.

Lemma elem_of_insert_interests uid (tbl : list (Z * string)) ints p :
  p ∈ foldl (insert_interest uid) tbl ints ↔
  p ∈ tbl ∨ ∃ i, i ∈ ints ∧ p = (uid, lower (strip i)).
Proof.
  revert tbl. induction ints as [|i ints IH]; intros tbl; simpl.
  - split; [by left | intros [? | (i & ?%elem_of_nil & _)]; done].
  - rewrite IH. unfold insert_interest. split.
    + intros [Hp | (j & Hj & ->)].
      * case_decide as Hin.
        -- by left.
        -- apply elem_of_app in Hp as [? | ->%list_elem_of_singleton];
             [by left |]. right. exists i. split; [by left | done].
      * right. exists j. split; [by right | done].
    + intros [Hp | (j & [-> | Hj]%elem_of_cons & ->)].
      * left. case_decide; [done |]. apply elem_of_app. by left.
      * left. case_decide; [done |]. apply elem_of_app. right.
        by apply list_elem_of_singleton.
      * right. by exists j.
Qed.

Lemma insert_interests_NoDup uid (tbl : list (Z * string)) ints :
  NoDup tbl → NoDup (foldl (insert_interest uid) tbl ints).
Proof.
  revert tbl. induction ints as [|i ints IH]; intros tbl Hnd; simpl; [done |].
  apply IH. unfold insert_interest. case_decide as Hin; [done |].
  apply NoDup_app. split; [done |]. split; [| apply NoDup_singleton].
  intros p Hp ->%list_elem_of_singleton. done.
Qed.

Lemma insert_friend_step_NoDup usrs uid (tbl : list (Z * Z)) fid :
  NoDup tbl → NoDup (insert_friend usrs uid tbl fid).
Proof.
  intros Hnd. unfold insert_friend. case_bool_decide; [| done].
  case_decide as H1; [done |].
  assert (NoDup (tbl ++ [(uid, fid)])) as Hnd1.
  { apply NoDup_app. split; [done |]. split; [| apply NoDup_singleton].
    intros p Hp ->%list_elem_of_singleton. done. }
  case_decide as H2; [done |].
  apply NoDup_app. split; [done |]. split; [| apply NoDup_singleton].
  intros p Hp ->%list_elem_of_singleton. done.
Qed.

Lemma insert_friends_NoDup usrs uid (tbl : list (Z * Z)) fids :
  NoDup tbl → NoDup (foldl (insert_friend usrs uid) tbl fids).
Proof.
  revert tbl. induction fids as [|f fids IH]; intros tbl Hnd; simpl; [done |].
  by apply IH, insert_friend_step_NoDup.
Qed.

(** The rows one round of the [friend_ids] loop may add. *)
Lemma elem_of_insert_friend_step usrs uid (tbl : list (Z * Z)) fid p :
  p ∈ insert_friend usrs uid tbl fid →
  p ∈ tbl ∨ (fid ∈ u_id <$> usrs) ∧ (p = (uid, fid) ∨ p = (fid, uid)).
Proof.
  unfold insert_friend. case_bool_decide as Hf; [| by left].
  case_decide; [by left |]. case_decide.
  - intros [? | ->%list_elem_of_singleton]%elem_of_app; [by left |].
    right. split; [done | by left].
  - intros [[? | ->%list_elem_of_singleton]%elem_of_app
            | ->%list_elem_of_singleton]%elem_of_app.
    + by left.
    + right. split; [done | by left].
    + right. split; [done | by right].
Qed.

Lemma elem_of_insert_friends usrs uid (tbl : list (Z * Z)) fids p :
  p ∈ foldl (insert_friend usrs uid) tbl fids →
  p ∈ tbl ∨
  ∃ fid, fid ∈ fids ∧ (fid ∈ u_id <$> usrs) ∧
         (p = (uid, fid) ∨ p = (fid, uid)).
Proof.
  revert tbl. induction fids as [|f fids IH]; intros tbl; simpl; [by left |].
  intros [Hp | (fid & Hfid & Hu & Hp)]%IH.
  - apply elem_of_insert_friend_step in Hp as [? | [Hu Hp]]; [by left |].
    right. exists f. split; [by left | done].
  - right. exists fid. split; [by right | done].
Qed.

Lemma find_app_r {A} (f : A → bool) (l l' : list A) :
  List.find f l = None → List.find f (l ++ l') = List.find f l'.
Proof.
  induction l as [|y l IH]; simpl; [done |].
  destruct (f y); [discriminate | exact IH].
Qed.

Lemma find_None_iff {A} (f : A → bool) (l : list A) :
  List.find f l = None ↔ ∀ x, x ∈ l → f x = false.
Proof.
  rewrite eq_None_not_Some, find_is_Some. split.
  - intros Hno x Hx. destruct (f x) eqn:Hf; [| done].
    destruct Hno. eauto.
  - intros Hall (x & Hx & Hf). rewrite (Hall x Hx) in Hf. discriminate.
Qed.

Lemma find_Some_inv {A} (f : A → bool) (l : list A) x :
  List.find f l = Some x → x ∈ l ∧ f x = true.
Proof.
  induction l as [|y l IH]; simpl; [discriminate |].
  destruct (f y) eqn:Hy.
  - intros [= <-]. split; [by left | done].
  - intros [Hx Hf]%IH. split; [by right | done].
Qed.

(** Lookup by a key without duplicates finds the row itself. *)
Lemma find_by_key `{EqDecision K} {A} (key : A → K) (l : list A) r :
  NoDup (key <$> l) → r ∈ l →
  List.find (λ x, bool_decide (key x = key r)) l = Some r.
Proof.
  induction l as [|y l IH]; simpl; [by intros _ ?%elem_of_nil |].
  intros [Hy Hnd]%NoDup_cons [-> | Hr]%elem_of_cons.
  - by rewrite bool_decide_eq_true_2.
  - rewrite bool_decide_eq_false_2; [by apply IH |].
    intros Heq. apply Hy. rewrite Heq.
    apply list_elem_of_fmap. by exists r.
Qed.

Lemma elem_of_get_user_interests (d : DatabaseManager) n x :
  x ∈ get_user_interests d n ↔ (n, x) ∈ interests d.
Proof.
  unfold get_user_interests.
  rewrite elem_of_list_to_set, list_elem_of_fmap. split.
  - intros ([m y] & -> & [Hm Hin]%list_elem_of_filter). simpl in *. by subst.
  - intros Hin. exists (n, x). split; [done |].
    by apply list_elem_of_filter.
Qed.



(** X2: a [create_user] call that returns an id was made with an email no
    user had and with a rowid left; the id is a rowid larger than every id
    in use and than the sequence counter; exactly one row was appended to
    [users], and that row is what [get_user] on the new id and
    [get_user_by_email] on the new email return afterwards. *)
Theorem create_user_lookup d now name email ints fids i :
  (create_user d now name email ints fids).2 = Some i →
  (email ∉ u_email <$> users d) ∧
  rowid_available d ∧
  (∀ n, n ∈ user_ids d → n < i) ∧
  users_seq d < i ∧
  i ≤ max_rowid ∧
  users_seq (create_user d now name email ints fids).1 = i ∧
  get_all_users (create_user d now name email ints fids).1
    = get_all_users d ++
      [{| u_id := i; u_name := name; u_email := email;
          u_created_at := now |}] ∧
  get_user (create_user d now name email ints fids).1 i
    = Some {| u_id := i; u_name := name; u_email := email;
              u_created_at := now |} ∧
  get_user_by_email (create_user d now name email ints fids).1 email
    = Some {| u_id := i; u_name := name; u_email := email;
              u_created_at := now |}.
Proof.
  intros (He & Hi & ->)%create_user_inv.
  apply next_user_id_Some in Hi as (Hav & Hseq & Hmax & Hlt).
  repeat (split; [done |]). split.
  - unfold get_user. simpl. rewrite find_app_r.
    + simpl. by rewrite bool_decide_eq_true_2.
    + apply find_None_iff. intros x Hx. apply bool_decide_eq_false_2.
      intros Heq. assert (u_id x < i) as Hx'; [| lia].
      apply Hlt, elem_of_user_ids. by exists x.
  - unfold get_user_by_email. simpl. rewrite find_app_r.
    + simpl. by rewrite bool_decide_eq_true_2.
    + apply find_None_iff. intros x Hx. apply bool_decide_eq_false_2.
      intros Heq. apply He. rewrite <- Heq.
      apply list_elem_of_fmap. by exists x.
Qed.

Lemma create_user_interests_set d now name email ints fids i :
  (create_user d now name email ints fids).2 = Some i →
  get_user_interests (create_user d now name email ints fids).1 i
    = get_user_interests d i ∪ list_to_set ((λ x, lower (strip x)) <$> ints).
Proof.
  intros (_ & _ & ->)%create_user_inv. apply set_eq. intros x.
  rewrite elem_of_union, !elem_of_get_user_interests. simpl.
  rewrite elem_of_insert_interests, elem_of_list_to_set, list_elem_of_fmap.
  split.
  - intros [? | (j & Hj & [= ->])]; [by left | right; by exists j].
  - intros [? | (j & -> & Hj)]; [by left | right; by exists j].
Qed.

Lemma interests_fk_fresh d i :
  interests_fk d → i ∉ user_ids d → get_user_interests d i = ∅.
Proof.
  intros Hfk Hfresh. apply set_eq. intros x.
  rewrite elem_of_get_user_interests, elem_of_empty. split; [| done].
  intros Hin. unfold interests_fk in Hfk. rewrite Forall_forall in Hfk.
  apply Hfk in Hin. simpl in Hin. done.
Qed.

(** X3: after a [create_user] that returned an id, called with interests
    written in ASCII characters, the interests of the new user are the
    given strings, each stripped and lower-cased, as a set (together with
    any rows the store already held for that id, of which there are none
    when [interests] respects its foreign key). *)
Theorem create_user_interests d now name email ints fids i :
  Forall ascii_text ints →
  (create_user d now name email ints fids).2 = Some i →
  get_user_interests (create_user d now name email ints fids).1 i
    = get_user_interests d i ∪ list_to_set ((λ x, lower (strip x)) <$> ints) ∧
  (interests_fk d → get_user_interests d i = ∅).
Proof.
  intros _ Hi. split.
  - by apply create_user_interests_set.
  - intros Hfk. apply interests_fk_fresh; [done |].
    by apply (create_user_fresh _ _ _ _ _ _ _ Hi).
Qed.

Lemma user_ids_app_row (d : DatabaseManager) row n :
  n ∈ user_ids d → n ∈ u_id <$> (users d ++ [row]).
Proof.
  intros Hn. rewrite fmap_app. apply elem_of_app. left.
  unfold user_ids in Hn. by rewrite elem_of_list_to_set in Hn.
Qed.

(** X4: [create_user] keeps the constraints the schema declares: ids and
    emails of [users] stay unique, [interests] and [friends] hold no
    duplicate row, and both still reference existing users only. *)
Theorem create_user_schema_ok d now name email ints fids :
  schema_ok d → schema_ok (create_user d now name email ints fids).1.
Proof.
  intros [Hids Hem Hint Hfr Hifk Hffk].
  destruct (create_user d now name email ints fids).2 as [i|] eqn:Hr;
    [| by rewrite (create_user_None _ _ _ _ _ _ Hr)].
  apply create_user_inv in Hr as (He & Hfresh%next_user_id_fresh & ->).
  set (row := {| u_id := i; u_name := name; u_email := email;
                 u_created_at := now |}).
  assert (∀ n, n ∈ user_ids d → n ∈ u_id <$> (users d ++ [row])) as Hmono.
  { intros n. apply user_ids_app_row. }
  assert (i ∈ u_id <$> (users d ++ [row])) as Hi.
  { rewrite fmap_app. apply elem_of_app. right. by left. }
  constructor; simpl.
  - rewrite fmap_app. apply NoDup_app. split; [done |].
    split; [| apply NoDup_singleton].
    intros n Hn ->%list_elem_of_singleton. apply Hfresh.
    unfold user_ids. by rewrite elem_of_list_to_set.
  - rewrite fmap_app. apply NoDup_app. split; [done |].
    split; [| apply NoDup_singleton].
    intros e' He' ->%list_elem_of_singleton. done.
  - by apply insert_interests_NoDup.
  - by apply insert_friends_NoDup.
  - unfold interests_fk, user_ids in *. simpl.
    apply Forall_forall. intros p Hp. rewrite elem_of_list_to_set.
    apply elem_of_insert_interests in Hp as [Hp | (j & _ & ->)]; [| done].
    rewrite Forall_forall in Hifk. apply Hmono. unfold user_ids.
    by apply Hifk.
  - unfold friends_fk in *. unfold user_ids at 1 2. simpl.
    apply Forall_forall. intros p Hp. rewrite !elem_of_list_to_set.
    apply elem_of_insert_friends in Hp
      as [Hp | (fid & _ & Hfid & [-> | ->])]; simpl; [| done | done].
    rewrite Forall_forall in Hffk. destruct (Hffk p Hp) as [H1 H2].
    split; by apply Hmono.
Qed.

Lemma insert_friend_step_symmetric usrs uid (tbl : list (Z * Z)) fid :
  (∀ a b, (a, b) ∈ tbl → (b, a) ∈ tbl) →
  ∀ a b, (a, b) ∈ insert_friend usrs uid tbl fid →
         (b, a) ∈ insert_friend usrs uid tbl fid.
Proof.
  intros Hsym a b. unfold insert_friend. case_bool_decide; [| apply Hsym].
  case_decide as H1; [apply Hsym |]. case_decide as H2.
  - intros [Hab | [= -> ->]%list_elem_of_singleton]%elem_of_app.
    + apply elem_of_app. left. by apply Hsym.
    + done.
  - intros [[Hab | [= -> ->]%list_elem_of_singleton]%elem_of_app
            | [= -> ->]%list_elem_of_singleton]%elem_of_app.
    + apply elem_of_app. left. apply elem_of_app. left. by apply Hsym.
    + apply elem_of_app. right. by left.
    + apply elem_of_app. left. apply elem_of_app. right. by left.
Qed.

Lemma insert_friends_symmetric usrs uid (tbl : list (Z * Z)) fids :
  (∀ a b, (a, b) ∈ tbl → (b, a) ∈ tbl) →
  ∀ a b, (a, b) ∈ foldl (insert_friend usrs uid) tbl fids →
         (b, a) ∈ foldl (insert_friend usrs uid) tbl fids.
Proof.
  revert tbl. induction fids as [|f fids IH]; intros tbl Hsym; simpl; [done |].
  by apply IH, insert_friend_step_symmetric.
Qed.

Lemma insert_friends_adds usrs uid (tbl : list (Z * Z)) fids fid :
  fid ∈ fids → (fid ∈ u_id <$> usrs) →
  (uid, fid) ∈ foldl (insert_friend usrs uid) tbl fids.
Proof.
  revert tbl. induction fids as [|f fids IH]; intros tbl; simpl.
  - by intros ?%elem_of_nil.
  - intros [-> | Hin]%elem_of_cons Hu; [| by apply IH].
    eapply elem_of_prefix; [| apply insert_friend_prefix].
    unfold insert_friend. rewrite bool_decide_eq_true_2 by done.
    case_decide; [done |].
    case_decide.
    + apply elem_of_app. right. by left.
    + apply elem_of_app. left. apply elem_of_app. right. by left.
Qed.

(** X5: when friendships are stored in both directions, they still are
    after [create_user]; every given friend id that is an existing user
    (or the new id itself) is then a friend of the new user in both
    directions, and every row added to [friends] joins the new user with a
    given id that is a user: unknown ids are skipped. *)
Theorem create_user_friends d now name email ints fids i :
  (create_user d now name email ints fids).2 = Some i →
  (symmetric_friends d →
   symmetric_friends (create_user d now name email ints fids).1 ∧
   ∀ fid, fid ∈ fids → fid ∈ user_ids d ∨ fid = i →
          (i, fid) ∈ friends (create_user d now name email ints fids).1 ∧
          (fid, i) ∈ friends (create_user d now name email ints fids).1) ∧
  (∀ p, p ∈ friends (create_user d now name email ints fids).1 →
        p ∈ friends d ∨
        ∃ fid, fid ∈ fids ∧
               fid ∈ user_ids (create_user d now name email ints fids).1 ∧
               (p = (i, fid) ∨ p = (fid, i))).
Proof.
  intros (_ & _ & ->)%create_user_inv. simpl.
  set (row := {| u_id := i; u_name := name; u_email := email;
                 u_created_at := now |}).
  split.
  - intros Hsym.
    assert (symmetric_friends
              {| users := users d ++ [row];
                 interests := foldl (insert_interest i) (interests d) ints;
                 friends := foldl (insert_friend (users d ++ [row]) i)
                                  (friends d) fids;
                 users_seq := i |}) as Hsym'.
    { intros a b. simpl. by apply insert_friends_symmetric. }
    split; [exact Hsym' |].
    intros fid Hfid Hknown.
    assert ((i, fid) ∈ foldl (insert_friend (users d ++ [row]) i)
                             (friends d) fids) as Hin.
    { apply insert_friends_adds; [done |].
      destruct Hknown as [Hu | ->].
      - by apply user_ids_app_row.
      - rewrite fmap_app. apply elem_of_app. right. by left. }
    split; [exact Hin | by apply Hsym'].
  - intros p Hp. apply elem_of_insert_friends in Hp
      as [Hp | (fid & Hfid & Hu & Hp)]; [by left |].
    right. exists fid. split; [done |]. split; [| done].
    unfold user_ids. simpl. by rewrite elem_of_list_to_set.
Qed.


(** X7: with unique ids, every row listed by [get_all_users] is the row
    [get_user] returns for its id; [get_user] returns a row of the table
    with the id asked for.  With unique emails the same holds for
    [get_user_by_email].  Called with a 64-bit integer, [get_user] runs
    its SELECT and returns [None] exactly for an id no user has; called
    with any other integer it raises [OverflowError]. *)
Theorem get_user_round_trip (d : DatabaseManager) :
  (NoDup (u_id <$> users d) →
   ∀ r, r ∈ get_all_users d → get_user d (u_id r) = Some r) ∧
  (NoDup (u_email <$> users d) →
   ∀ r, r ∈ get_all_users d → get_user_by_email d (u_email r) = Some r) ∧
  (∀ n r, get_user d n = Some r → r ∈ get_all_users d ∧ u_id r = n) ∧
  (∀ e r, get_user_by_email d e = Some r →
          r ∈ get_all_users d ∧ u_email r = e) ∧
  (∀ n, sqlite_integer n →
        py_get_user d n = inr (get_user d n) ∧
        (py_get_user d n = inr None ↔ n ∉ user_ids d)) ∧
  (∀ n, ¬ sqlite_integer n → py_get_user d n = inl OverflowError).
Proof.
  split; [| split; [| split; [| split; [| split]]]].
  - intros Hnd r Hr. by apply (find_by_key u_id).
  - intros Hnd r Hr. by apply (find_by_key u_email).
  - intros n r [Hr Hn%bool_decide_eq_true]%find_Some_inv. done.
  - intros e r [Hr He%bool_decide_eq_true]%find_Some_inv. done.
  - intros n Hn. unfold py_get_user, bind_integer.
    rewrite decide_True by done. simpl. split; [done |].
    rewrite <- get_user_is_Some, <- eq_None_not_Some.
    split; [by intros [= ?] | by intros ->].
  - intros n Hn. unfold py_get_user, bind_integer.
    by rewrite decide_False by done.
Qed.

(** * Further properties of the graph *)

(** X8: the built graph is undirected and closed: whenever [b] is among
    the neighbours of [a], both are nodes and [a] is among the neighbours
    of [b]. *)
Theorem build_graph_undirected (d : DatabaseManager) a b fs :
  neighbors (_build_graph ∅ d) a = inr fs → b ∈ fs →
  a ∈ nodes (_build_graph ∅ d) ∧
  b ∈ nodes (_build_graph ∅ d) ∧
  ∃ fs', neighbors (_build_graph ∅ d) b = inr fs' ∧ a ∈ fs'.
Proof.
  intros Hfs Hb. apply neighbors_adj in Hfs as <-.
  pose proof Hb as Hrows%adj_build.
  assert (a ∈ nodes (_build_graph ∅ d) ∧ b ∈ nodes (_build_graph ∅ d))
    as [Ha Hb'].
  { rewrite nodes_build. unfold friend_endpoints.
    split; apply elem_of_union; right;
      rewrite elem_of_list_to_set, list_elem_of_bind;
      destruct Hrows as [Hr | Hr]; eexists; (split; [| exact Hr]); simpl;
      rewrite !elem_of_cons; auto. }
  split; [done |]. split; [done |].
  destruct (neighbors_present _ _ Hb') as [fs' Hfs'].
  exists fs'. split; [done |]. apply neighbors_adj in Hfs' as <-.
  apply adj_build. tauto.
Qed.

Lemma attrs_link (g : Graph) u v m :
  attrs <$> (link g u v !! m) = attrs <$> (g !! m).
Proof.
  unfold link. rewrite lookup_alter. case_decide; [subst | done].
  by destruct (g !! m).
Qed.

Lemma attrs_ensure_node_Some (g : Graph) n m a :
  attrs <$> (g !! m) = Some a → attrs <$> (ensure_node g n !! m) = Some a.
Proof.
  intros Hm. unfold ensure_node. destruct (g !! n) eqn:Hn; [done |].
  rewrite lookup_insert_ne; [done |]. intros <-. by rewrite Hn in Hm.
Qed.

Lemma attrs_ensure_node_fresh (g : Graph) n m :
  g !! m = None ∨ attrs <$> (g !! m) = Some ∅ →
  ensure_node g n !! m = None ∨ attrs <$> (ensure_node g n !! m) = Some ∅.
Proof.
  intros Hm. unfold ensure_node. destruct (g !! n) eqn:Hn; [done |].
  destruct (decide (n = m)) as [<- | Hne].
  - right. by rewrite lookup_insert_eq.
  - by rewrite lookup_insert_ne.
Qed.

Lemma attrs_add_edge_Some (g : Graph) u v m a :
  attrs <$> (g !! m) = Some a → attrs <$> (add_edge g u v !! m) = Some a.
Proof.
  intros Hm. unfold add_edge. rewrite !attrs_link.
  by apply attrs_ensure_node_Some, attrs_ensure_node_Some.
Qed.

Lemma attrs_add_edge_fresh (g : Graph) u v m :
  g !! m = None ∨ attrs <$> (g !! m) = Some ∅ →
  add_edge g u v !! m = None ∨ attrs <$> (add_edge g u v !! m) = Some ∅.
Proof.
  intros Hm.
  apply (attrs_ensure_node_fresh _ u), (attrs_ensure_node_fresh _ v) in Hm.
  unfold add_edge.
  destruct Hm as [Hm | Hm]; [left | right].
  - unfold link. by rewrite !lookup_alter_None.
  - by rewrite !attrs_link.
Qed.

Lemma attrs_add_edges_Some (g : Graph) (rows : list (Z * Z)) m a :
  attrs <$> (g !! m) = Some a →
  attrs <$> (foldl (λ g row, add_edge g row.1 row.2) g rows !! m) = Some a.
Proof.
  revert g. induction rows as [|p rows IH]; intros g Hm; simpl; [done |].
  by apply IH, attrs_add_edge_Some.
Qed.

Lemma attrs_add_edges_fresh (g : Graph) (rows : list (Z * Z)) m :
  g !! m = None ∨ attrs <$> (g !! m) = Some ∅ →
  foldl (λ g row, add_edge g row.1 row.2) g rows !! m = None ∨
  attrs <$> (foldl (λ g row, add_edge g row.1 row.2) g rows !! m) = Some ∅.
Proof.
  revert g. induction rows as [|p rows IH]; intros g Hm; simpl; [done |].
  by apply IH, attrs_add_edge_fresh.
Qed.

Lemma lookup_add_node_ne (g : Graph) n a m :
  n ≠ m → add_node g n a !! m = g !! m.
Proof.
  intros Hne. unfold add_node. destruct (g !! n); by rewrite lookup_insert_ne.
Qed.

Lemma lookup_add_users_ne (g : Graph) (us : list user_row) m :
  (m ∉ u_id <$> us) →
  foldl (λ g user, add_node g (u_id user) (user_attrs user)) g us !! m
  = g !! m.
Proof.
  revert g. induction us as [|r us IH]; intros g Hm; simpl; [done |].
  apply not_elem_of_cons in Hm as [Hne Hm].
  rewrite IH by done. by apply lookup_add_node_ne.
Qed.

Lemma attrs_add_users (g : Graph) (us : list user_row) r :
  NoDup (u_id <$> us) → r ∈ us → g !! u_id r = None →
  attrs <$>
    (foldl (λ g user, add_node g (u_id user) (user_attrs user)) g us !! u_id r)
  = Some (user_attrs r).
Proof.
  revert g. induction us as [|r0 us IH]; intros g Hnd Hr Hg; simpl.
  - by apply elem_of_nil in Hr.
  - apply NoDup_cons in Hnd as [Hr0 Hnd].
    apply elem_of_cons in Hr as [-> | Hr].
    + rewrite lookup_add_users_ne by done.
      unfold add_node. rewrite Hg. by rewrite lookup_insert_eq.
    + apply IH; [done | done |].
      rewrite lookup_add_node_ne; [done |]. intros Heq. apply Hr0.
      rewrite Heq. apply list_elem_of_fmap. by exists r.
Qed.

(** X9: with unique user ids, the node of every scanned user carries that
    user's name and email as attributes; a node that only occurs in
    [friends] carries no attributes. *)
Theorem build_graph_attributes (d : DatabaseManager) :
  NoDup (u_id <$> users d) →
  (∀ r, r ∈ get_all_users d →
        attrs <$> (_build_graph ∅ d !! u_id r)
        = Some {[ "name" := u_name r; "email" := u_email r ]}) ∧
  (∀ n, n ∈ nodes (_build_graph ∅ d) → n ∉ user_ids d →
        attrs <$> (_build_graph ∅ d !! n) = Some ∅).
Proof.
  intros Hnd. unfold _build_graph, get_all_users. split.
  - intros r Hr. apply attrs_add_edges_Some.
    by apply attrs_add_users.
  - intros n Hn Hno.
    destruct (attrs_add_edges_fresh
                (foldl (λ g user, add_node g (u_id user) (user_attrs user))
                       ∅ (users d)) (friends d) n) as [Hnone | Hsome].
    + left. rewrite lookup_add_users_ne; [done |].
      unfold user_ids in Hno. by rewrite elem_of_list_to_set in Hno.
    + apply elem_of_nodes in Hn as [x Hx].
      unfold _build_graph, get_all_users in Hx. congruence.
    + exact Hsome.
Qed.

(** * Further properties of the similarity *)

Lemma ratio_zero n m :
  0 < m → Qred (inject_Z n / inject_Z m) = 0%Q ↔ n = 0.
Proof.
  intros Hm. split.
  - intros Hq.
    assert (inject_Z n / inject_Z m == 0)%Q as Heq
      by (rewrite <- (Qred_correct (inject_Z n / inject_Z m)), Hq; reflexivity).
    destruct m as [|p|p]; try lia.
    unfold Qeq, Qdiv, Qmult, Qinv in Heq. simpl in Heq. lia.
  - intros ->. change 0%Q with (Qred 0). apply Qred_complete.
    unfold Qdiv. apply Qmult_0_l.
Qed.

Lemma ratio_one n m :
  0 < m → Qred (inject_Z n / inject_Z m) = 1%Q ↔ n = m.
Proof.
  intros Hm. split.
  - intros Hq.
    assert (inject_Z n / inject_Z m == 1)%Q as Heq
      by (rewrite <- (Qred_correct (inject_Z n / inject_Z m)), Hq; reflexivity).
    destruct m as [|p|p]; try lia.
    unfold Qeq, Qdiv, Qmult, Qinv in Heq. simpl in Heq. lia.
  - intros ->. by apply ratio_self.
Qed.

Lemma ratio_positive n m :
  0 ≤ n → 0 < m → (0 < Qred (inject_Z n / inject_Z m))%Q ↔ 0 < n.
Proof.
  intros Hn Hm. rewrite Qred_correct.
  destruct m as [|p|p]; try lia.
  unfold Qlt, Qdiv, Qmult, Qinv. simpl. lia.
Qed.

(** X10: [jaccard_similarity] is 0 exactly when the two sets have no
    element in common, and 1 exactly when they are the same non-empty
    set. *)
Theorem jaccard_similarity_extremes `{Countable A} (a b : gset A) :
  (jaccard_similarity a b = inr 0%Q ↔ a ∩ b = ∅) ∧
  (jaccard_similarity a b = inr 1%Q ↔ a = b ∧ a ≠ ∅).
Proof.
  destruct (decide (a ∪ b = ∅)) as [Hu | Hu].
  - apply empty_union_L in Hu as [-> ->]. rewrite jaccard_empty. split.
    + split; [intros _; apply (idemp_L (∩)) | done].
    + split; [discriminate | by intros [_ ?]].
  - rewrite jaccard_nonempty by done.
    pose proof (len_pos _ Hu) as Hm. split.
    + split.
      * intros [= Hq]. apply ratio_zero in Hq; [| done].
        unfold len in Hq. apply leibniz_equiv, size_empty_iff. lia.
      * intros Hi. f_equal. apply ratio_zero; [done |].
        unfold len. by rewrite Hi, size_empty.
    + split.
      * intros [= Hq]. apply ratio_one in Hq; [| done].
        unfold len in Hq.
        assert (a ∩ b = a ∪ b) as Heq.
        { apply set_subseteq_size_eq; [| lia].
          intros x [Hx _]%elem_of_intersection. apply elem_of_union. by left. }
        assert (a = b) as ->.
        { apply set_eq. intros x. split; intros Hx.
          - assert (x ∈ a ∩ b) as Hx'
              by (rewrite Heq; apply elem_of_union; by left).
            by apply elem_of_intersection in Hx' as [_ ?].
          - assert (x ∈ a ∩ b) as Hx'
              by (rewrite Heq; apply elem_of_union; by right).
            by apply elem_of_intersection in Hx' as [? _]. }
        split; [done |]. intros ->. apply Hu. apply (idemp_L (∪)).
      * intros [-> Hne]. f_equal. apply ratio_one; [done |].
        by rewrite (idemp_L (∩)), (idemp_L (∪)).
Qed.

Lemma jaccard_positive `{Countable A} (a b : gset A) q :
  jaccard_similarity a b = inr q → (0 < q)%Q ↔ a ∩ b ≠ ∅.
Proof.
  destruct (decide (a ∪ b = ∅)) as [Hu | Hu].
  - apply empty_union_L in Hu as [-> ->]. rewrite jaccard_empty.
    intros [= <-]. split; [by intros ?%Qlt_irrefl |].
    intros Hne. destruct Hne. apply (idemp_L (∩)).
  - rewrite jaccard_nonempty by done. intros [= <-].
    rewrite ratio_positive; [| apply len_inter_le_union | by apply len_pos].
    unfold len. split.
    + intros Hpos Hemp. rewrite Hemp, size_empty in Hpos. lia.
    + intros Hne. assert (size (a ∩ b) ≠ 0%nat); [| lia].
      rewrite size_non_empty_iff. by intros ?%leibniz_equiv.
Qed.

Lemma jaccard_comm `{Countable A} (a b : gset A) :
  jaccard_similarity a b = jaccard_similarity b a.
Proof.
  unfold jaccard_similarity.
  by rewrite (comm_L (∩) a b), (comm_L (∪) a b), (orb_comm (truthy a)).
Qed.

Section engine_more.
Variable iter_ids : gset Z → list Z.
Variable iter_strs : gset string → list string.
Hypothesis iter_ids_perm : ∀ s, iter_ids s ≡ₚ elements s.
Hypothesis iter_strs_perm : ∀ s, iter_strs s ≡ₚ elements s.

Local Abbreviation similarity_of := (calculate_user_similarity iter_strs).
Local Abbreviation recommend := (get_friend_recommendations iter_ids iter_strs).

Lemma iter_strs_nil s : iter_strs s = [] ↔ s = ∅.
Proof.
  split.
  - intros Hnil. apply leibniz_equiv, elements_empty_iff.
    apply Permutation_nil_r. by rewrite <- iter_strs_perm, Hnil.
  - intros ->. apply Permutation_nil_r.
    by rewrite iter_strs_perm, elements_empty.
Qed.

Lemma combined_positive (m i : Q) :
  (0 <= m)%Q → (0 <= i)%Q →
  (0 < Qred (0.6 * m + 0.4 * i))%Q ↔ (0 < i)%Q ∨ (0 < m)%Q.
Proof.
  intros Hm Hi. rewrite Qred_correct. split.
  - intros Hpos. destruct (Qlt_le_dec 0 i) as [? | Hi0]; [by left |].
    destruct (Qlt_le_dec 0 m) as [? | Hm0]; [by right |]. lra.
  - intros [? | ?]; lra.
Qed.

(** X11: for two users of the graph the fields of the similarity dict
    agree with each other: the interest similarity is positive exactly
    when the users share an interest, which is when [common_interests] is
    not empty; the mutual-friends similarity is positive exactly when they
    have a common neighbour, which is when [mutual_friends_count] is
    positive; and the combined score is positive exactly when one of the
    two is. *)
Theorem similarity_positive_iff e u1 u2 :
  u1 ∈ nodes (graph e) → u2 ∈ nodes (graph e) →
  ∃ sim f1 f2,
    similarity_of e u1 u2 = inr sim ∧
    neighbors (graph e) u1 = inr f1 ∧
    neighbors (graph e) u2 = inr f2 ∧
    ((0 < interest_similarity sim)%Q ↔
     get_user_interests (db e) u1 ∩ get_user_interests (db e) u2 ≠ ∅) ∧
    ((0 < interest_similarity sim)%Q ↔ common_interests sim ≠ []) ∧
    ((0 < mutual_friends_similarity sim)%Q ↔ f1 ∩ f2 ≠ ∅) ∧
    ((0 < mutual_friends_similarity sim)%Q ↔ 0 < mutual_friends_count sim) ∧
    ((0 < combined_score sim)%Q ↔
     (0 < interest_similarity sim)%Q ∨ (0 < mutual_friends_similarity sim)%Q).
Proof.
  intros H1 H2.
  destruct (similarity_present iter_strs e u1 u2 H1 H2)
    as (f1 & f2 & i & m & Hf1 & Hf2 & Hi & Hm & Hib & Hmb & Hs).
  eexists _, f1, f2. split; [exact Hs |]. simpl.
  pose proof (jaccard_positive _ _ _ Hi) as Hipos.
  pose proof (jaccard_positive _ _ _ Hm) as Hmpos.
  do 2 (split; [done |]). split; [exact Hipos |]. split.
  { rewrite Hipos. by rewrite iter_strs_nil. }
  split; [exact Hmpos |]. split.
  { rewrite Hmpos. unfold len. split.
    - intros Hne. assert (size (f1 ∩ f2) ≠ 0%nat); [| lia].
      rewrite size_non_empty_iff. by intros ?%leibniz_equiv.
    - intros Hpos Hemp. rewrite Hemp, size_empty in Hpos. lia. }
  apply combined_positive; tauto.
Qed.

(** X12: for two users of the graph the similarity does not depend on the
    order of the two: both calls return the same three scores and the same
    count of mutual friends, and list the same common interests. *)
Theorem calculate_user_similarity_symmetric e u1 u2 :
  u1 ∈ nodes (graph e) → u2 ∈ nodes (graph e) →
  ∃ s12 s21,
    similarity_of e u1 u2 = inr s12 ∧
    similarity_of e u2 u1 = inr s21 ∧
    interest_similarity s12 = interest_similarity s21 ∧
    mutual_friends_similarity s12 = mutual_friends_similarity s21 ∧
    combined_score s12 = combined_score s21 ∧
    mutual_friends_count s12 = mutual_friends_count s21 ∧
    common_interests s12 ≡ₚ common_interests s21.
Proof.
  intros H1 H2.
  destruct (similarity_present iter_strs e u1 u2 H1 H2)
    as (f1 & f2 & i & m & Hf1 & Hf2 & Hi & Hm & _ & _ & Hs).
  destruct (similarity_present iter_strs e u2 u1 H2 H1)
    as (f2' & f1' & i' & m' & Hf2' & Hf1' & Hi' & Hm' & _ & _ & Hs').
  rewrite Hf1 in Hf1'. rewrite Hf2 in Hf2'.
  injection Hf1' as <-. injection Hf2' as <-.
  assert (i' = i) as -> by (rewrite jaccard_comm in Hi'; congruence).
  assert (m' = m) as -> by (rewrite jaccard_comm in Hm'; congruence).
  eexists _, _. split; [exact Hs |]. split; [exact Hs' |]. simpl.
  do 3 (split; [done |]). split.
  - by rewrite (comm_L (∩)).
  - by rewrite !iter_strs_perm, (comm_L (∩)).
Qed.

(** * Further properties of the recommendations *)

(** X13: [get_friend_recommendations] raises [TypeError] exactly when the
    user is a node and some candidate that scores above 0 has no row in
    [users]: [get_user] returns [None] and the loop subscripts it. *)
Theorem recommend_type_error e u limit :
  recommend e u limit = inl TypeError ↔
  ∃ fs c,
    neighbors (graph e) u = inr fs ∧
    c ∈ candidates (graph e) u fs ∧
    positive_candidate iter_strs e u c ∧
    get_user (db e) c = None.
Proof.
  split.
  - intros Hr. destruct (neighbors (graph e) u) as [x | fs] eqn:Hfs.
    + unfold get_friend_recommendations in Hr. rewrite Hfs in Hr.
      simpl in Hr. apply neighbors_inl in Hfs as [_ ->]. discriminate.
    + destruct (recommend_spec iter_ids iter_strs iter_ids_perm e u limit fs Hfs)
        as [[_ (c & Hc)] | (full & Hfull & _)]; [| congruence].
      by exists fs, c.
  - intros (fs & c & Hfs & Hc & Hp & Hg).
    destruct (recommend_spec iter_ids iter_strs iter_ids_perm e u limit fs Hfs)
      as [[Hr _] | (full & _ & _ & _ & Hall & Hmem)]; [done |].
    exfalso. assert (c ∈ rec_user_id <$> full) as Hin by by apply Hmem.
    apply list_elem_of_fmap in Hin as (r & -> & Hr).
    rewrite Forall_forall in Hall.
    destruct (Hall r Hr) as (s & row & _ & _ & Hrow & _). congruence.
Qed.

(** X14: a smaller non-negative limit returns a prefix: the result for
    [l1] is the first [l1] entries of the result for any [l2] above it,
    and the same exception is raised when one is. *)
Theorem recommend_limit_prefix e u l1 l2 :
  0 ≤ l1 ≤ l2 →
  get_friend_recommendations iter_ids iter_strs e u l1
  = sum_map id (take (Z.to_nat l1))
      (get_friend_recommendations iter_ids iter_strs e u l2).
Proof.
  intros [H1 H2]. unfold get_friend_recommendations.
  destruct (neighbors (graph e) u) as [x | fs]; simpl; [done |].
  destruct (recommend_loop _ _ _ _ _) as [x | recs]; simpl; [done |].
  unfold ret. f_equal.
  rewrite !slice_to_nonneg by lia. rewrite take_take. f_equal. lia.
Qed.

Lemma candidates_length (g : Graph) u fs (full : list recommendation) :
  u ∈ nodes g → NoDup (rec_user_id <$> full) →
  (∀ c, c ∈ rec_user_id <$> full → c ∈ candidates g u fs) →
  (length full < size (nodes g))%nat.
Proof.
  intros Hu Hnd Hsub.
  rewrite <- (length_fmap rec_user_id), <- (size_list_to_set (C:=gset Z)) by done.
  apply subset_size. split.
  - intros c Hc%elem_of_list_to_set.
    apply Hsub in Hc. by apply candidates_nodes in Hc as [? _].
  - intros Hall. specialize (Hall u Hu).
    apply elem_of_list_to_set, Hsub in Hall.
    apply candidates_nodes in Hall. tauto.
Qed.

(** X15: with a limit of at least the number of nodes nothing is cut off:
    every candidate that scores above 0 is returned, once, and there are
    fewer entries than nodes. *)
Theorem recommend_all e u limit :
  store_covers e → u ∈ nodes (graph e) →
  Z.of_nat (size (nodes (graph e))) ≤ limit →
  ∃ fs recs,
    neighbors (graph e) u = inr fs ∧
    recommend e u limit = inr recs ∧
    StronglySorted score_ge recs ∧
    NoDup (rec_user_id <$> recs) ∧
    (∀ c, c ∈ rec_user_id <$> recs ↔
          c ∈ candidates (graph e) u fs ∧
          positive_candidate iter_strs e u c) ∧
    (length recs < size (nodes (graph e)))%nat.
Proof.
  intros He Hu Hl.
  destruct (recommend_covered iter_ids iter_strs iter_ids_perm e u limit He Hu)
    as (fs & full & Hfs & Hr & Hsort & Hnd & _ & Hmem).
  assert (length full < size (nodes (graph e)))%nat as Hlen.
  { apply (candidates_length _ u fs); [done | done |].
    intros c Hc. by apply Hmem in Hc as [? _]. }
  exists fs, full. rewrite Hr, slice_to_nonneg by lia.
  rewrite take_ge by lia. done.
Qed.

(** X16: every returned entry has a score above 0 and at most 1, names a
    user who shares an interest or a mutual friend with the one asked
    for, and shows the name and the email of that user's row in the
    store. *)
Theorem recommendation_entries e u limit recs r :
  recommend e u limit = inr recs → r ∈ recs →
  (0 < similarity_score r <= 1)%Q ∧
  (rec_common_interests r ≠ [] ∨ 0 < rec_mutual_friends_count r) ∧
  ∃ row,
    get_user (db e) (rec_user_id r) = Some row ∧
    u_id row = rec_user_id r ∧
    rec_name r = u_name row ∧
    rec_email r = u_email row.
Proof.
  intros Hrecs Hr.
  apply (recommend_inr iter_ids iter_strs iter_ids_perm) in Hrecs
    as (fs & full & Hfs & -> & _ & _ & Hall & Hmem).
  pose proof (slice_members iter_strs e u fs full limit r Hmem Hr) as (Hn & _ & _).
  assert (r ∈ full) as Hin
    by (eapply elem_of_sublist; [exact Hr | apply slice_to_sublist]).
  rewrite Forall_forall in Hall.
  destruct (Hall r Hin)
    as (s & row & Hs & Hp & Hrow & _ & Hname & Hmail & Hsc & Hci & Hmc & _ & _).
  assert (u ∈ nodes (graph e)) as Hu.
  { apply neighbors_inr in Hfs as (d & Hd & _). apply elem_of_nodes. eauto. }
  destruct (similarity_present iter_strs e u (rec_user_id r) Hu Hn)
    as (f1 & f2 & i & m & _ & _ & Hi & Hm & Hib & Hmb & Hs').
  rewrite Hs in Hs'. injection Hs' as ->. simpl in *.
  split; [| split].
  - rewrite Hsc. split; [done |]. by apply combined_bounds.
  - rewrite Hci, Hmc.
    apply combined_positive in Hp as [Hp | Hp]; [left | right | tauto | tauto].
    + apply (jaccard_positive _ _ _ Hi) in Hp. by rewrite iter_strs_nil.
    + apply (jaccard_positive _ _ _ Hm) in Hp. unfold len.
      assert (size (f1 ∩ f2) ≠ 0%nat); [| lia].
      rewrite size_non_empty_iff. by intros ?%leibniz_equiv.
  - exists row. split; [done |]. split; [| done].
    unfold get_user in Hrow.
    by apply find_Some_inv in Hrow as [_ ?%bool_decide_eq_true].
Qed.

(** X17: on a graph built from a store, with a limit that cuts nothing
    off, recommendations are mutual: if [v] is recommended to [u] then [u]
    is recommended to [v]. *)
Theorem recommend_mutual d0 e u v limit ru :
  graph e = _build_graph ∅ d0 → store_covers e →
  Z.of_nat (size (nodes (graph e))) ≤ limit →
  recommend e u limit = inr ru → v ∈ rec_user_id <$> ru →
  ∃ rv, recommend e v limit = inr rv ∧ u ∈ rec_user_id <$> rv.
Proof.
  intros Hg He Hl Hru Hv.
  apply (recommend_inr iter_ids iter_strs iter_ids_perm) in Hru
    as (fsu & fullu & Hfsu & -> & _ & _ & _ & Hmemu).
  assert (u ∈ nodes (graph e)) as Hu.
  { apply neighbors_inr in Hfsu as (d & Hd & _). apply elem_of_nodes. eauto. }
  assert (v ∈ rec_user_id <$> fullu) as Hv'.
  { apply list_elem_of_fmap in Hv as (r & -> & Hr).
    apply list_elem_of_fmap. exists r. split; [done |].
    eapply elem_of_sublist; [exact Hr | apply slice_to_sublist]. }
  apply Hmemu in Hv' as [Hc (s & Hs & Hp)].
  apply candidates_nodes in Hc as (Hvn & Hvf & Hvu).
  destruct (recommend_covered iter_ids iter_strs iter_ids_perm e v limit He Hvn)
    as (fsv & fullv & Hfsv & Hrv & _ & Hnd & _ & Hmemv).
  assert (length fullv < size (nodes (graph e)))%nat as Hlen.
  { apply (candidates_length _ v fsv); [done | done |].
    intros c Hc. by apply Hmemv in Hc as [? _]. }
  exists fullv. split.
  { rewrite Hrv, slice_to_nonneg by lia. by rewrite take_ge by lia. }
  apply Hmemv. split.
  - apply candidates_nodes. split; [done |]. split; [| done].
    intros Huf. apply Hvf.
    apply neighbors_adj in Hfsu as <-. apply neighbors_adj in Hfsv as <-.
    rewrite Hg in Huf |- *. apply adj_build. apply adj_build in Huf. tauto.
  - destruct (similarity_present iter_strs e u v Hu Hvn)
      as (f1 & f2 & i & m & Hf1 & Hf2 & Hi & Hm & _ & _ & Hs').
    destruct (similarity_present iter_strs e v u Hvn Hu)
      as (f2' & f1' & i' & m' & Hf2' & Hf1' & Hi' & Hm' & _ & _ & Hs'').
    rewrite Hf1 in Hf1'. rewrite Hf2 in Hf2'.
    injection Hf1' as <-. injection Hf2' as <-.
    assert (i' = i) as -> by (rewrite jaccard_comm in Hi'; congruence).
    assert (m' = m) as -> by (rewrite jaccard_comm in Hm'; congruence).
    eexists. split; [exact Hs'' |]. simpl.
    rewrite Hs in Hs'. by injection Hs' as ->.
Qed.

(** * Properties of the menu *)

Lemma split_comma_nonempty s : split_comma s ≠ [].
Proof.
  destruct s as [|c s]; simpl; [done |].
  destruct (Ascii.eqb c ","); [done |]. by destruct (split_comma s).
Qed.

(** [split(',')] cuts a line at its commas: it returns at least one piece,
    no piece contains a comma, and the pieces put together again with
    commas between them are the line. *)
Lemma split_comma_pieces s :
  split_comma s ≠ [] ∧
  Forall (λ piece, ("," : ascii) ∉ String.list_ascii_of_string piece) (split_comma s) ∧
  String.concat "," (split_comma s) = s.
Proof.
  split; [apply split_comma_nonempty |].
  induction s as [|c s [IHc IHj]]; simpl.
  - split; [| done]. constructor; [| done]. simpl. by intros ?%elem_of_nil.
  - pose proof (split_comma_nonempty s) as Hne.
    destruct (Ascii.eqb c ",") eqn:Hc.
    + apply Ascii.eqb_eq in Hc as ->. split.
      * constructor; [| done]. simpl. by intros ?%elem_of_nil.
      * simpl. destruct (split_comma s) as [|p ps]; [done |].
        by rewrite <- IHj.
    + apply Ascii.eqb_neq in Hc.
      destruct (split_comma s) as [|p ps]; [done |].
      apply Forall_cons in IHc as [Hp Hps]. split.
      * constructor; [| done]. simpl.
        intros [Heq | Hin]%elem_of_cons; [congruence | done].
      * simpl in *. destruct ps; by rewrite <- IHj.
Qed.

Lemma menu_choice_engine app ch app' out :
  menu_choice iter_ids iter_strs app ch = inr (app', out) →
  graph (recommendation_engine app') = graph (recommendation_engine app) ∧
  (db (recommendation_engine app') = db (recommendation_engine app) ∨
   ∃ now name email line,
     ch = CreateUser now name email line ∧
     db (recommendation_engine app')
     = (create_user (db (recommendation_engine app)) now name email
                    (split_comma line) []).1).
Proof.
  destruct ch; simpl.
  - intros [= <- <-]. simpl. split; [done |]. right. by eexists _, _, _, _.
  - destruct (get_user _ _); intros [= <- <-]; by split; [| left].
  - destruct (logged_in app); [| intros [= <- <-]; by split; [| left]].
    destruct (get_user _ _); [| discriminate].
    intros [= <- <-]; by split; [| left].
  - destruct (logged_in app); [| intros [= <- <-]; by split; [| left]].
    destruct (get_friend_recommendations _ _ _ _ _); [discriminate |].
    simpl. intros [= <- <-]; by split; [| left].
  - intros [= <- <-]; by split; [| left].
  - intros [= <- <-]; by split; [| left].
  - intros [= <- <-]; by split; [| left].
Qed.

(** X19: nothing in a session touches the graph: after any run of menu
    choices the engine still holds the graph it was given, the [users]
    rows it started with are still there in front, every node still has
    its row if it had one before, and the store is the same when no user
    was created. *)
Theorem run_menu_keeps_graph app chs app' outs :
  run_menu iter_ids iter_strs app chs = inr (app', outs) →
  graph (recommendation_engine app') = graph (recommendation_engine app) ∧
  users (db (recommendation_engine app))
    `prefix_of` users (db (recommendation_engine app')) ∧
  (store_covers (recommendation_engine app) →
   store_covers (recommendation_engine app')) ∧
  (Forall (λ ch, ∀ now name email line,
                   ch ≠ CreateUser now name email line) chs →
   db (recommendation_engine app') = db (recommendation_engine app)).
Proof.
  revert app app' outs. induction chs as [|ch chs IH]; intros app app' outs.
  - simpl. by intros [= <- <-].
  - assert (run_menu iter_ids iter_strs app (ch :: chs)
            = match ch with
              | Exit => ret (app, [Goodbye])
              | _ => let* r := menu_choice iter_ids iter_strs app ch in
                     let* r' := run_menu iter_ids iter_strs r.1 chs in
                     ret (r'.1, r.2 :: r'.2)
              end) as -> by by destruct ch.
    assert (ch = Exit ∨ ch ≠ Exit) as [-> | Hne]
      by (destruct ch; (by left) || (by right)).
    { by intros [= <- <-]. }
    intros Hrun.
    assert (∃ app1 out1 outs1,
              menu_choice iter_ids iter_strs app ch = inr (app1, out1) ∧
              run_menu iter_ids iter_strs app1 chs = inr (app', outs1))
      as (app1 & out1 & outs1 & Hstep & Hrest).
    { destruct ch; try done;
        apply bind_inr in Hrun as ([app1 out1] & Hstep & Hrun);
        apply bind_inr in Hrun as ([app2 outs1] & Hrest & Hrun);
        simpl in *; injection Hrun as <- <-; by eexists _, _, _. }
    apply menu_choice_engine in Hstep as [Hg Hd].
    apply IH in Hrest as (Hg' & Hu' & Hc' & Hd').
    split; [congruence |]. split; [| split].
    + etrans; [| exact Hu'].
      destruct Hd as [-> | (now & name & email & line & _ & ->)]; [done |].
      unfold create_user. case_bool_decide; simpl; [done |].
      destruct (next_user_id _); simpl; [| done]. by apply prefix_app_r.
    + intros Hcov. apply Hc'.
      destruct app as [[d g] cur], app1 as [[d1 g1] cur1]. simpl in *.
      subst g1.
      destruct Hd as [-> | (now & name & email & line & _ & ->)]; [done |].
      apply (covers_create_user {| db := d; graph := g |}
               {| c_now := now; c_name := name; c_email := email;
                  c_interests := split_comma line; c_friend_ids := [] |}).
      exact Hcov.
    + intros [Hch Hchs]%Forall_cons. rewrite Hd' by done.
      destruct Hd as [-> | (now & name & email & line & -> & _)]; [done |].
      by destruct (Hch now name email line).
Qed.

(** X20: a user created through the menu, from a line typed in ASCII
    characters, never has an empty interest set: the interests are the
    pieces of the typed line, stripped and lower-cased, and a line left
    empty gives the one interest [""]. *)
Theorem menu_create_user_interests app now name email line i app' :
  interests_fk (db (recommendation_engine app)) →
  ascii_text line →
  menu_choice iter_ids iter_strs app (CreateUser now name email line)
    = inr (app', UserCreated (Some i)) →
  get_user_interests (db (recommendation_engine app')) i
    = list_to_set ((λ x, lower (strip x)) <$> split_comma line) ∧
  get_user_interests (db (recommendation_engine app')) i ≠ ∅ ∧
  (line = "" →
   get_user_interests (db (recommendation_engine app')) i = {[ "" ]}).
Proof.
  intros Hfk _. set (d := db (recommendation_engine app)) in *.
  simpl. fold d. intros [= <- Hr].
  assert (get_user_interests
            (db (recommendation_engine
                   (with_db app
                      (create_user d now name email (split_comma line) []).1)))
            i
          = list_to_set ((λ x, lower (strip x)) <$> split_comma line)) as Heq.
  { simpl. rewrite create_user_interests_set by exact Hr.
    rewrite interests_fk_fresh;
      [| done | by apply (create_user_fresh _ _ _ _ _ _ _ Hr)].
    apply (left_id_L ∅ (∪)). }
  split; [exact Heq |]. split.
  - rewrite Heq. pose proof (split_comma_nonempty line) as Hne.
    destruct (split_comma line) as [|p ps]; [done |]. simpl.
    intros Hemp. assert (lower (strip p) ∈ (∅ : gset string)) as Hin.
    { rewrite <- Hemp. apply elem_of_union. left. by apply elem_of_singleton. }
    by apply elem_of_empty in Hin.
  - intros ->. rewrite Heq. simpl. apply (right_id_L ∅ (∪)).
Qed.

(** X21: a user created in a session can log in and see the profile, but
    asking for recommendations ends the program: the graph was built
    before the user existed, and the unknown-node error is not caught. *)
Theorem menu_new_user_recommendations app now name email line i app1 :
  store_covers (recommendation_engine app) →
  0 ≤ users_seq (db (recommendation_engine app)) →
  menu_choice iter_ids iter_strs app (CreateUser now name email line)
    = inr (app1, UserCreated (Some i)) →
  ∃ app2 user,
    menu_choice iter_ids iter_strs app1 (Login i) = inr (app2, LoggedIn) ∧
    menu_choice iter_ids iter_strs app2 ViewProfile
      = inr (app2,
             Profile user
               (iter_strs (get_user_interests
                             (db (recommendation_engine app2)) i))) ∧
    u_id user = i ∧
    sqlite_integer i ∧
    menu_choice iter_ids iter_strs app2 GetRecommendations
      = inl (NetworkXError i).
Proof.
  intros Hcov Hseq. set (d := db (recommendation_engine app)) in *.
  simpl. fold d. intros [= <- Hr].
  set (r := create_user d now name email (split_comma line) []) in *.
  destruct (create_user_Some _ _ _ _ _ _ _ Hr) as [Hi Hu].
  pose proof (next_user_id_fresh _ _ Hi) as Hfresh.
  apply next_user_id_Some in Hi as (_ & Hlt & Hmax & _).
  assert (i ≠ 0) as Hi0 by lia.
  assert (∃ user, get_user r.1 i = Some user) as [user Huser].
  { apply get_user_is_Some, elem_of_user_ids.
    eexists. fold r in Hu. rewrite Hu.
    split; [apply elem_of_app; right; by left | done]. }
  assert (i ∉ nodes (graph (recommendation_engine app))) as Hnode.
  { intros Hn. by apply (covers_nodes _ Hcov) in Hn. }
  exists {| recommendation_engine := recommendation_engine (with_db app r.1);
            current_user_id := Some i |}, user.
  split; [simpl; by rewrite Huser |].
  unfold menu_choice, logged_in. simpl.
  rewrite decide_False by done. rewrite Huser.
  split; [done |]. split; [| split].
  - unfold get_user in Huser.
    by apply find_Some_inv in Huser as [_ ?%bool_decide_eq_true].
  - unfold sqlite_integer. split; [| done].
    assert (- 2 ^ 63 ≤ 0) by by compute. lia.
  - unfold get_friend_recommendations. simpl.
    by rewrite (neighbors_absent _ _ Hnode).
Qed.

(** X22: for a logged-in user who is a node of the graph, choice 4 does
    not raise when every node has its row: it prints at most five
    entries, best score first, none of them the user, and leaves the
    state as it was. *)
Theorem menu_recommendations_for_known_user app u :
  store_covers (recommendation_engine app) →
  current_user_id app = Some u → u ≠ 0 →
  u ∈ nodes (graph (recommendation_engine app)) →
  ∃ recs,
    menu_choice iter_ids iter_strs app GetRecommendations
      = inr (app, Recommendations recs) ∧
    (length recs ≤ 5)%nat ∧
    StronglySorted score_ge recs ∧
    ∀ r, r ∈ recs → rec_user_id r ≠ u.
Proof.
  intros Hcov Hcur Hu0 Hu.
  destruct (recommend_covered iter_ids iter_strs iter_ids_perm
              (recommendation_engine app) u 5 Hcov Hu)
    as (fs & full & Hfs & Hr & Hsort & _ & _ & Hmem).
  exists (slice_to full 5). split.
  - unfold menu_choice, logged_in. rewrite Hcur, decide_False by done.
    by rewrite Hr.
  - split; [| split].
    + rewrite slice_to_nonneg by lia. rewrite length_take. lia.
    + rewrite slice_to_nonneg by lia.
      rewrite <- (take_drop (Z.to_nat 5) full) in Hsort.
      by apply StronglySorted_app_1_l in Hsort.
    + intros r Hin.
      by apply (slice_members iter_strs _ u fs full 5 r Hmem) in Hin
        as (_ & ? & _).
Qed.

End engine_more.

(** * The further properties on sample stores *)

Lemma store_friends_schema_ok : schema_ok store_friends.
Proof. constructor; unfold interests_fk, friends_fk; compute_done. Qed.

Lemma store_friends_symmetric : symmetric_friends store_friends.
Proof.
  intros a b Hab. unfold store_friends in *. simpl in *.
  repeat (apply elem_of_cons in Hab as [[= -> ->] | Hab]; [compute_done |]).
  by apply elem_of_nil in Hab.
Qed.


Lemma create_user_lookup_witness :
  (create_user store_interests "2024-02-02" "u4" "u4" ["a"] [2]).2 = Some 4 ∧
  users_seq store_interests < 4 ∧
  get_user (create_user store_interests "2024-02-02" "u4" "u4" ["a"] [2]).1 4
  = Some {| u_id := 4; u_name := "u4"; u_email := "u4";
            u_created_at := "2024-02-02" |}.
Proof.
  assert ((create_user store_interests "2024-02-02" "u4" "u4" ["a"] [2]).2
          = Some 4) as Hi by compute_done.
  split; [exact Hi |].
  destruct (create_user_lookup store_interests "2024-02-02" "u4" "u4"
              ["a"] [2] 4 Hi) as (_ & _ & _ & Hseq & _ & _ & _ & Hg & _).
  split; [exact Hseq | exact Hg].
Defined.

Lemma create_user_interests_witness :
  Forall ascii_text [" A "; "a"; "b"] ∧
  (create_user store_interests "2024-02-02" "u4" "u4" [" A "; "a"; "b"] []).2
  = Some 4 ∧
  get_user_interests
    (create_user store_interests "2024-02-02" "u4" "u4" [" A "; "a"; "b"] []).1 4
  = get_user_interests store_interests 4
    ∪ list_to_set ((λ x, lower (strip x)) <$> [" A "; "a"; "b"]).
Proof.
  assert ((create_user store_interests "2024-02-02" "u4" "u4"
             [" A "; "a"; "b"] []).2 = Some 4) as Hi by compute_done.
  assert (Forall ascii_text [" A "; "a"; "b"]) as Hascii
    by (repeat constructor; unfold ascii_char; simpl; lia).
  split; [exact Hascii |]. split; [exact Hi |].
  apply (create_user_interests store_interests "2024-02-02" "u4" "u4"
           [" A "; "a"; "b"] [] 4 Hascii Hi).
Defined.

Lemma create_user_schema_ok_witness :
  schema_ok store_friends ∧
  schema_ok (create_user store_friends "2024-02-02" "u4" "u4" ["a"; "a"] [1; 1; 9]).1.
Proof.
  split; [exact store_friends_schema_ok |].
  apply create_user_schema_ok, store_friends_schema_ok.
Defined.

Lemma create_user_friends_witness :
  (create_user store_friends "2024-02-02" "u4" "u4" [] [1; 9]).2 = Some 4 ∧
  symmetric_friends store_friends ∧
  symmetric_friends (create_user store_friends "2024-02-02" "u4" "u4" [] [1; 9]).1 ∧
  (4, 1) ∈ friends (create_user store_friends "2024-02-02" "u4" "u4" [] [1; 9]).1 ∧
  (1, 4) ∈ friends (create_user store_friends "2024-02-02" "u4" "u4" [] [1; 9]).1.
Proof.
  assert ((create_user store_friends "2024-02-02" "u4" "u4" [] [1; 9]).2
          = Some 4) as Hi by compute_done.
  split; [exact Hi |]. split; [exact store_friends_symmetric |].
  destruct (create_user_friends store_friends "2024-02-02" "u4" "u4" [] [1; 9]
              4 Hi) as [Hsym _].
  destruct (Hsym store_friends_symmetric) as [Hsym' Hboth].
  split; [exact Hsym' |].
  apply (Hboth 1); [compute_done | left; compute_done].
Defined.


Lemma get_user_round_trip_witness :
  NoDup (u_id <$> users store_interests) ∧
  sample_user 2 "u2" ∈ get_all_users store_interests ∧
  get_user store_interests (u_id (sample_user 2 "u2")) = Some (sample_user 2 "u2") ∧
  py_get_user store_interests 7 = inr None ∧
  py_get_user store_interests (2 ^ 63) = inl OverflowError.
Proof.
  assert (NoDup (u_id <$> users store_interests)) as Hnd by compute_done.
  assert (sample_user 2 "u2" ∈ get_all_users store_interests) as Hin
    by (right; left).
  destruct (get_user_round_trip store_interests)
    as (Hid & _ & _ & _ & Hin64 & Hout).
  split; [exact Hnd |]. split; [exact Hin |]. split; [exact (Hid Hnd _ Hin) |].
  split.
  - apply (Hin64 7); compute_done.
  - apply Hout. compute_done.
Defined.

Lemma build_graph_undirected_witness :
  neighbors (_build_graph ∅ store_friends) 1 = inr {[3]} ∧
  3 ∈ ({[3]} : gset Z) ∧
  ∃ fs', neighbors (_build_graph ∅ store_friends) 3 = inr fs' ∧ 1 ∈ fs'.
Proof.
  assert (neighbors (_build_graph ∅ store_friends) 1 = inr {[3]}) as Hn
    by compute_done.
  assert (3 ∈ ({[3]} : gset Z)) as H3 by compute_done.
  split; [exact Hn |]. split; [exact H3 |].
  destruct (build_graph_undirected store_friends 1 3 {[3]} Hn H3)
    as (_ & _ & Hback). exact Hback.
Defined.

Lemma build_graph_attributes_witness :
  NoDup (u_id <$> users store_friends) ∧
  attrs <$> (_build_graph ∅ store_friends !! 1)
  = Some {[ "name" := "u1"; "email" := "u1" ]}.
Proof.
  assert (NoDup (u_id <$> users store_friends)) as Hnd by compute_done.
  split; [exact Hnd |].
  destruct (build_graph_attributes store_friends Hnd) as [Hattrs _].
  apply (Hattrs (sample_user 1 "u1")). by left.
Defined.

Lemma similarity_positive_iff_witness :
  1 ∈ nodes (graph (new_engine store_interests)) ∧
  2 ∈ nodes (graph (new_engine store_interests)) ∧
  ∃ sim,
    calculate_user_similarity elements (new_engine store_interests) 1 2
      = inr sim ∧
    ((0 < interest_similarity sim)%Q ↔ common_interests sim ≠ []).
Proof.
  split; [compute_done |]. split; [compute_done |].
  destruct (similarity_positive_iff elements elements_enumerates
              (new_engine store_interests) 1 2)
    as (sim & _ & _ & Hs & _ & _ & _ & Hc & _);
    [compute_done | compute_done |].
  exists sim. split; [exact Hs | exact Hc].
Defined.

Lemma calculate_user_similarity_symmetric_witness :
  1 ∈ nodes (graph (new_engine store_friends)) ∧
  2 ∈ nodes (graph (new_engine store_friends)) ∧
  ∃ s12 s21,
    calculate_user_similarity elements (new_engine store_friends) 1 2 = inr s12 ∧
    calculate_user_similarity elements (new_engine store_friends) 2 1 = inr s21 ∧
    combined_score s12 = combined_score s21.
Proof.
  split; [compute_done |]. split; [compute_done |].
  destruct (calculate_user_similarity_symmetric elements elements_enumerates
              (new_engine store_friends) 1 2)
    as (s12 & s21 & H12 & H21 & _ & _ & Hc & _);
    [compute_done | compute_done |].
  exists s12, s21. split; [exact H12 |]. split; [exact H21 | exact Hc].
Defined.

Lemma recommend_type_error_witness :
  neighbors (graph engine_lost_row) 1 = inr ∅ ∧
  3 ∈ candidates (graph engine_lost_row) 1 ∅ ∧
  get_user (db engine_lost_row) 3 = None ∧
  get_friend_recommendations elements elements engine_lost_row 1 5
  = inl TypeError.
Proof.
  assert (neighbors (graph engine_lost_row) 1 = inr ∅) as Hn by compute_done.
  assert (3 ∈ candidates (graph engine_lost_row) 1 ∅) as Hc by compute_done.
  assert (get_user (db engine_lost_row) 3 = None) as Hg by compute_done.
  split; [exact Hn |]. split; [exact Hc |]. split; [exact Hg |].
  apply (recommend_type_error elements elements elements_enumerates
           engine_lost_row 1 5).
  exists ∅, 3. split; [exact Hn |]. split; [exact Hc |]. split; [| exact Hg].
  eexists. split; [vm_compute; reflexivity | compute_done].
Defined.

Lemma recommend_limit_prefix_witness :
  0 ≤ 1 ≤ 5 ∧
  get_friend_recommendations elements elements (new_engine store_interests) 1 1
  = sum_map id (take (Z.to_nat 1))
      (get_friend_recommendations elements elements
         (new_engine store_interests) 1 5).
Proof.
  split; [lia |].
  apply (recommend_limit_prefix elements elements
           (new_engine store_interests) 1 1 5). lia.
Defined.

Lemma recommend_all_witness :
  store_covers (new_engine store_interests) ∧
  1 ∈ nodes (graph (new_engine store_interests)) ∧
  Z.of_nat (size (nodes (graph (new_engine store_interests)))) ≤ 5 ∧
  ∃ recs,
    get_friend_recommendations elements elements
      (new_engine store_interests) 1 5 = inr recs ∧
    NoDup (rec_user_id <$> recs).
Proof.
  split; [exact store_interests_covers |]. split; [compute_done |].
  split; [compute_done |].
  destruct (recommend_all elements elements elements_enumerates
              (new_engine store_interests) 1 5 store_interests_covers)
    as (fs & recs & _ & Hr & _ & Hnd & _); [compute_done | compute_done |].
  exists recs. split; [exact Hr | exact Hnd].
Defined.

Lemma recommendation_entries_witness :
  get_friend_recommendations elements elements (new_engine store_interests) 1 5
  = inr sample_recs ∧
  ∃ r, r ∈ sample_recs ∧ (0 < similarity_score r <= 1)%Q.
Proof.
  assert (get_friend_recommendations elements elements
            (new_engine store_interests) 1 5 = inr sample_recs) as Hr
    by compute_done.
  split; [exact Hr |].
  assert (∃ r l, sample_recs = r :: l) as (r & l & Heq)
    by (vm_compute; eauto).
  assert (r ∈ sample_recs) as Hin by (rewrite Heq; left).
  exists r. split; [exact Hin |].
  destruct (recommendation_entries elements elements elements_enumerates
              elements_enumerates (new_engine store_interests) 1 5
              sample_recs r Hr Hin) as [Hb _].
  exact Hb.
Defined.

Lemma recommend_mutual_witness :
  store_covers (new_engine store_interests) ∧
  Z.of_nat (size (nodes (graph (new_engine store_interests)))) ≤ 5 ∧
  get_friend_recommendations elements elements (new_engine store_interests) 1 5
  = inr sample_recs ∧
  3 ∈ rec_user_id <$> sample_recs ∧
  ∃ rv,
    get_friend_recommendations elements elements
      (new_engine store_interests) 3 5 = inr rv ∧
    1 ∈ rec_user_id <$> rv.
Proof.
  assert (Z.of_nat (size (nodes (graph (new_engine store_interests)))) ≤ 5)
    as Hl by compute_done.
  assert (get_friend_recommendations elements elements
            (new_engine store_interests) 1 5 = inr sample_recs) as Hr
    by compute_done.
  assert (3 ∈ rec_user_id <$> sample_recs) as H3 by compute_done.
  split; [exact store_interests_covers |]. split; [exact Hl |].
  split; [exact Hr |]. split; [exact H3 |].
  apply (recommend_mutual elements elements elements_enumerates
           store_interests (new_engine store_interests) 1 3 5 sample_recs
           eq_refl store_interests_covers Hl Hr H3).
Defined.

Lemma run_menu_keeps_graph_witness :
  (∃ app' outs,
     run_menu elements elements (initialize store_interests) sample_choices
     = inr (app', outs) ∧
     graph (recommendation_engine app')
     = graph (recommendation_engine (initialize store_interests)) ∧
     4 ∈ user_ids (db (recommendation_engine app')) ∧
     (4 ∉ nodes (graph (recommendation_engine app')))).
Proof.
  destruct (run_menu elements elements (initialize store_interests)
              sample_choices) as [x | [app' outs]] eqn:Hrun;
    [vm_compute in Hrun; discriminate |].
  exists app', outs. split; [reflexivity |].
  destruct (run_menu_keeps_graph elements elements
              (initialize store_interests) sample_choices app' outs Hrun)
    as (Hg & _).
  split; [exact Hg |].
  vm_compute in Hrun. injection Hrun as <- _. split; compute_done.
Defined.

Lemma menu_create_user_interests_witness :
  interests_fk (db (recommendation_engine (initialize store_interests))) ∧
  ascii_text "" ∧
  menu_choice elements elements (initialize store_interests)
    (CreateUser "2024-02-02" "u4" "u4" "")
    = inr (sample_created "", UserCreated (Some 4)) ∧
  get_user_interests (db (recommendation_engine (sample_created ""))) 4
    = {[ "" ]}.
Proof.
  assert (interests_fk (db (recommendation_engine (initialize store_interests))))
    as Hfk by (unfold interests_fk; compute_done).
  assert (menu_choice elements elements (initialize store_interests)
            (CreateUser "2024-02-02" "u4" "u4" "")
          = inr (sample_created "", UserCreated (Some 4))) as Hstep
    by reflexivity.
  split; [exact Hfk |]. split; [exact I |]. split; [exact Hstep |].
  destruct (menu_create_user_interests elements elements
              (initialize store_interests) "2024-02-02" "u4" "u4" "" 4
              (sample_created "") Hfk I Hstep)
    as (_ & _ & Hblank).
  by apply Hblank.
Defined.

Lemma menu_new_user_recommendations_witness :
  store_covers (recommendation_engine (initialize store_interests)) ∧
  0 ≤ users_seq (db (recommendation_engine (initialize store_interests))) ∧
  menu_choice elements elements (initialize store_interests)
    (CreateUser "2024-02-02" "u4" "u4" "a,b")
    = inr (sample_created "a,b", UserCreated (Some 4)) ∧
  ∃ app2,
    menu_choice elements elements (sample_created "a,b") (Login 4)
      = inr (app2, LoggedIn) ∧
    menu_choice elements elements app2 GetRecommendations
      = inl (NetworkXError 4).
Proof.
  assert (0 ≤ users_seq (db (recommendation_engine
                               (initialize store_interests))))
    as Hseq by compute_done.
  assert (menu_choice elements elements (initialize store_interests)
            (CreateUser "2024-02-02" "u4" "u4" "a,b")
          = inr (sample_created "a,b", UserCreated (Some 4))) as Hstep
    by reflexivity.
  split; [exact store_interests_covers |]. split; [exact Hseq |].
  split; [exact Hstep |].
  destruct (menu_new_user_recommendations elements elements
              (initialize store_interests) "2024-02-02" "u4" "u4" "a,b" 4
              (sample_created "a,b") store_interests_covers Hseq Hstep)
    as (app2 & user & Hl & _ & _ & _ & Hr).
  exists app2. split; [exact Hl | exact Hr].
Defined.

Lemma menu_recommendations_for_known_user_witness :
  store_covers (recommendation_engine sample_app) ∧
  current_user_id sample_app = Some 1 ∧
  1 ≠ 0 ∧
  1 ∈ nodes (graph (recommendation_engine sample_app)) ∧
  ∃ recs,
    menu_choice elements elements sample_app GetRecommendations
      = inr (sample_app, Recommendations recs) ∧
    (length recs ≤ 5)%nat.
Proof.
  assert (1 ∈ nodes (graph (recommendation_engine sample_app))) as Hn
    by compute_done.
  split; [exact store_interests_covers |]. split; [reflexivity |].
  split; [lia |]. split; [exact Hn |].
  destruct (menu_recommendations_for_known_user elements elements
              elements_enumerates sample_app 1 store_interests_covers
              eq_refl) as (recs & Hr & Hlen & _); [lia | exact Hn |].
  exists recs. split; [exact Hr | exact Hlen].
Defined.
